(** * HMM engine of the isolated word recogniser

    A shallow embedding of class [MyHMM] of
    [hmm_based_isolated_word_recognizer.py] (constructor, [forward],
    [viterbi], [viterbi_transition_update]) and the properties of it that the
    specification states.

    Numbers are binary64 floats, as numpy's [float64]: the kernel's primitive
    floats, whose [+], [/] and comparisons are the IEEE 754 ones.  The
    transcendental library calls [np.log] and [scipy.special.logsumexp] are
    parameters of the development.  A 1-D array is a [list], a 2-D array the
    list of its rows.  Python exceptions are values of type [exn]; a method is
    a computation in a state-and-exception monad over the objects the caller
    can reach: the model [self] and the array passed as [state_likelihoods]. *)

From Stdlib Require Import Floats ZArith Lia Bool.
From stdpp Require Import base list.

Local Open Scope Z_scope.
Local Open Scope nat_scope.

(** ** Exceptions and results *)

Inductive exn : Set :=
| IndexError
| ValueError.

Inductive result (X : Type) : Type :=
| Ok (x : X)
| Raise (e : exn).

Arguments Ok {X} x.
Arguments Raise {X} e.

Definition rbind {X Y} (r : result X) (k : X -> result Y) : result Y :=
  match r with
  | Ok x => k x
  | Raise e => Raise e
  end.

(** ** The numpy operations the class uses *)

Module Np.

(** [np.zeros(n)] and [np.zeros((r, c))]. *)
Definition zeros (n : nat) : list float := replicate n 0%float.
Definition zeros2 (r c : nat) : list (list float) := replicate r (zeros c).

(** [a.shape[0]]. *)
Definition shape0 {X} (a : list X) : nat := length a.

(** [a[i]] for an index that is not negative. *)
Definition get {X} (a : list X) (i : nat) : result X :=
  match a !! i with
  | Some x => Ok x
  | None => Raise IndexError
  end.

(** An index [k] that may be negative counts from the end; outside
    [-n .. n-1] it is out of bounds. *)
Definition norm_index (n : nat) (k : Z) : result nat :=
  if ((0 <=? k) && (k <? Z.of_nat n))%Z then Ok (Z.to_nat k)
  else if ((- Z.of_nat n <=? k) && (k <? 0))%Z then Ok (Z.to_nat (Z.of_nat n + k))
  else Raise IndexError.

Definition get_z {X} (a : list X) (k : Z) : result X :=
  rbind (norm_index (length a) k) (get a).

(** [a[ks]] for a list [ks] of integers: the selected entries, in order. *)
Fixpoint take {X} (a : list X) (ks : list Z) : result (list X) :=
  match ks with
  | [] => Ok []
  | k :: ks' =>
      rbind (get_z a k) (fun x =>
      rbind (take a ks') (fun xs => Ok (x :: xs)))
  end.

(** [a[i] = x] for a scalar [x]. *)
Definition set {X} (a : list X) (i : nat) (x : X) : result (list X) :=
  if decide (i < length a) then Ok (<[i := x]> a) else Raise IndexError.

Definition set_z {X} (a : list X) (k : Z) (x : X) : result (list X) :=
  rbind (norm_index (length a) k) (fun i => set a i x).

(** A 1-D value stored into [n] cells: same length, or one element repeated. *)
Definition broadcast_to {X} (n : nat) (v : list X) : result (list X) :=
  if decide (length v = n) then Ok v
  else match v with
       | [x] => Ok (replicate n x)
       | _ => Raise ValueError
       end.

(** [a[t] = v] for a 2-D array [a] and a 1-D value [v]. *)
Definition set_row {X} (a : list (list X)) (t : nat) (v : list X)
  : result (list (list X)) :=
  match a !! t with
  | Some row => rbind (broadcast_to (length row) v) (fun v' => Ok (<[t := v']> a))
  | None => Raise IndexError
  end.

(** [a[t, i]] and [a[t, i] = x]. *)
Definition get2 {X} (a : list (list X)) (t i : nat) : result X :=
  rbind (get a t) (fun row => get row i).

Definition set2 {X} (a : list (list X)) (t i : nat) (x : X)
  : result (list (list X)) :=
  rbind (get a t) (fun row =>
  rbind (set row i x) (fun row' => Ok (<[t := row']> a))).

(** [a[:, i]]: column [i] of a 2-D array (an array without rows has no
    column to check [i] against and yields the empty column). *)
Fixpoint col {X} (a : list (list X)) (i : nat) : result (list X) :=
  match a with
  | [] => Ok []
  | row :: a' =>
      rbind (get row i) (fun x =>
      rbind (col a' i) (fun xs => Ok (x :: xs)))
  end.

(** [u + v] on 1-D arrays, with numpy's broadcasting of a length-1 operand. *)
Definition add (u v : list float) : result (list float) :=
  if decide (length u = length v) then Ok (zip_with PrimFloat.add u v)
  else match u, v with
       | [x], _ => Ok (map (PrimFloat.add x) v)
       | _, [y] => Ok (map (fun x => PrimFloat.add x y) u)
       | _, _ => Raise ValueError
       end.

(** [np.max]: a left-to-right reduction with numpy's [maximum], which
    keeps a NaN once it has met one. *)
Definition maximum (a b : float) : float :=
  if PrimFloat.is_nan a then a else if PrimFloat.ltb b a then a else b.

Definition max (xs : list float) : result float :=
  match xs with
  | [] => Raise ValueError
  | x :: xs' => Ok (fold_left maximum xs' x)
  end.

(** [np.argmax]: the scan of numpy's float [argmax]; [mp] is the running
    maximum, [best] its index, [i] the index of the head of [xs].  The
    running maximum is replaced when [x <= mp] fails, and the scan stops at
    the first NaN. *)
Fixpoint argmax_scan (mp : float) (best i : nat) (xs : list float) : nat :=
  match xs with
  | [] => best
  | x :: xs' =>
      if PrimFloat.leb x mp then argmax_scan mp best (S i) xs'
      else if PrimFloat.is_nan x then i
      else argmax_scan x i (S i) xs'
  end.

Definition argmax (xs : list float) : result nat :=
  match xs with
  | [] => Raise ValueError
  | x :: xs' => Ok (if PrimFloat.is_nan x then 0 else argmax_scan x 0 1 xs')
  end.

End Np.

(** ** The model object and the caller's heap *)

(** The attributes [__init__] sets.  [labels] holds Python integers. *)
Record MyHMM : Type := {
  eps : float;
  pi : list float;
  A : list (list float);
  labels : list Z;
  N_states : nat
}.

(** What a method call can reach of the caller's objects: the model and the
    emission array bound to the parameter [state_likelihoods]. *)
Record world : Type := {
  self : MyHMM;
  state_likelihoods : list (list float)
}.

(** ** Methods as computations: state and exceptions *)

Definition M (X : Type) : Type := world -> result X * world.

Definition retM {X} (x : X) : M X := fun w => (Ok x, w).

Definition bindM {X Y} (c : M X) (k : X -> M Y) : M Y :=
  fun w =>
    match c w with
    | (Ok x, w') => k x w'
    | (Raise e, w') => (Raise e, w')
    end.

(** Reading an attribute or the argument. *)
Definition read {X} (f : world -> X) : M X := fun w => (Ok (f w), w).

(** A numpy call on local values: it raises or returns, and touches nothing. *)
Definition lift {X} (r : result X) : M X := fun w => (r, w).

(** [self.A = a]. *)
Definition assign_A (a : list (list float)) : M unit :=
  fun w =>
    (Ok tt,
     {| self := {| eps := eps (self w); pi := pi (self w); A := a;
                   labels := labels (self w); N_states := N_states (self w) |};
        state_likelihoods := state_likelihoods w |}).

#[export] Instance M_ret : MRet M := @retM.
#[export] Instance M_bind : MBind M := fun X Y k c => bindM c k.

(** [for x in xs: s = body(x, s)]. *)
Fixpoint for_each {S} (xs : list nat) (body : nat -> S -> M S) (s : S) : M S :=
  match xs with
  | [] => mret s
  | x :: xs' => s' ← body x s; for_each xs' body s'
  end.

(** [range(a, b)] and [range(b - 1, a - 1, -1)]. *)
Definition range (a b : nat) : list nat := seq a (b - a).
Definition range_down (a b : nat) : list nat := reverse (seq a (b - a)).

(** ** class MyHMM *)

Section MyHMM.

(** [np.log] on a scalar and [scipy.special.logsumexp] on a 1-D array. *)
Variable log : float -> float.
Variable logsumexp : list float -> float.

(** [np.log(a + eps)] on 1-D and 2-D arrays. *)
Definition log_floor (eps : float) (x : float) : float :=
  log (PrimFloat.add x eps).

(** [MyHMM.__init__]: no statement of it checks a shape. *)
Definition __init__ (state_labels : list Z)
    (initial_state_distribution : list float)
    (transition_matrix : list (list float)) (eps : float) : result MyHMM :=
  Ok {| eps := eps;
        pi := map (log_floor eps) initial_state_distribution;
        A := map (map (log_floor eps)) transition_matrix;
        labels := state_labels;
        N_states := length state_labels |}.

Definition self_eps : M float := read (fun w => eps (self w)).
Definition self_pi : M (list float) := read (fun w => pi (self w)).
Definition self_A : M (list (list float)) := read (fun w => A (self w)).
Definition self_labels : M (list Z) := read (fun w => labels (self w)).
Definition self_N_states : M nat := read (fun w => N_states (self w)).
Definition arg_state_likelihoods : M (list (list float)) := read state_likelihoods.

(** The restriction step, the first four statements of [forward] and of
    [viterbi]: a fresh array receives, frame by frame, the columns that
    [self.labels] selects. *)
Definition state_likelihoods_copy : M (list (list float)) :=
  arg ← arg_state_likelihoods;
  N ← self_N_states;
  for_each (range 0 (Np.shape0 arg)) (fun t copy =>
    arg ← arg_state_likelihoods;
    frame ← lift (Np.get arg t);
    lbl ← self_labels;
    sel ← lift (Np.take frame lbl);
    lift (Np.set_row copy t sel))
  (Np.zeros2 (Np.shape0 arg) N).

(** [MyHMM.forward]. *)
Definition forward : M float :=
  state_likelihoods ← state_likelihoods_copy;
  N ← self_N_states;
  let alpha := Np.zeros2 (Np.shape0 state_likelihoods) N in
  p ← self_pi;
  e0 ← lift (Np.get state_likelihoods 0);
  v ← lift (Np.add p e0);
  alpha ← lift (Np.set_row alpha 0 v);
  alpha ← for_each (range 1 (Np.shape0 state_likelihoods)) (fun t alpha =>
    N ← self_N_states;
    for_each (range 0 N) (fun i alpha =>
      prev ← lift (Np.get alpha (t - 1));
      a ← self_A;
      c ← lift (Np.col a i);
      s ← lift (Np.add prev c);
      e ← lift (Np.get2 state_likelihoods t i);
      lift (Np.set2 alpha t i (PrimFloat.add (logsumexp s) e)))
    alpha)
  alpha;
  last ← lift (Np.get_z alpha (-1));
  lift (Np.get_z last (-1)).

(** [MyHMM.viterbi].  The source keeps [psi] and [q_star] in float arrays
    and reads them back with [int]; the numbers stored are state indices, and
    they are kept here as the integers they are. *)
Definition viterbi : M (list nat) :=
  state_likelihoods ← state_likelihoods_copy;
  N ← self_N_states;
  let delta := Np.zeros2 (Np.shape0 state_likelihoods) N in
  p ← self_pi;
  e0 ← lift (Np.get state_likelihoods 0);
  v ← lift (Np.add p e0);
  delta ← lift (Np.set_row delta 0 v);
  N ← self_N_states;
  let psi := replicate (Np.shape0 state_likelihoods) (replicate N 0) in
  psi ← lift (Np.set_row psi 0 [0]);
  dp ← for_each (range 1 (Np.shape0 state_likelihoods)) (fun t dp =>
    N ← self_N_states;
    for_each (range 0 N) (fun i dp =>
      prev ← lift (Np.get dp.1 (t - 1));
      a ← self_A;
      c ← lift (Np.col a i);
      s ← lift (Np.add prev c);
      mx ← lift (Np.max s);
      e ← lift (Np.get2 state_likelihoods t i);
      delta ← lift (Np.set2 dp.1 t i (PrimFloat.add mx e));
      prev ← lift (Np.get delta (t - 1));
      a ← self_A;
      c ← lift (Np.col a i);
      s ← lift (Np.add prev c);
      am ← lift (Np.argmax s);
      psi ← lift (Np.set2 dp.2 t i am);
      mret (delta, psi))
    dp)
  (delta, psi);
  let q_star := replicate (Np.shape0 state_likelihoods) 0 in
  last ← lift (Np.get_z dp.1 (-1));
  am ← lift (Np.argmax last);
  q_star ← lift (Np.set_z q_star (-1) am);
  for_each (range_down 0 (Np.shape0 state_likelihoods - 1)) (fun t q_star =>
    nxt ← lift (Np.get q_star (t + 1));
    b ← lift (Np.get2 dp.2 (t + 1) nxt);
    lift (Np.set q_star t b))
  q_star.

(** [transitions_ij / out_transitions[:, None] + self.eps], the array that
    [viterbi_transition_update] hands to [np.log]. *)
Definition transition_ratio (eps : float) (transitions_ij : list (list float))
    (out_transitions : list float) : list (list float) :=
  zip_with (fun row o => map (fun c => PrimFloat.add (PrimFloat.div c o) eps) row)
    transitions_ij out_transitions.

(** [MyHMM.viterbi_transition_update]. *)
Definition viterbi_transition_update : M unit :=
  N ← self_N_states;
  let transitions_ij := Np.zeros2 N N in
  N ← self_N_states;
  let out_transitions := Np.zeros N in
  q_star ← viterbi;
  arg ← arg_state_likelihoods;
  counts ← for_each (range 0 (Np.shape0 arg - 1)) (fun t counts =>
    a ← lift (Np.get q_star t);
    b ← lift (Np.get q_star (t + 1));
    old ← lift (Np.get2 counts.1 a b);
    transitions_ij ← lift (Np.set2 counts.1 a b (PrimFloat.add old 1));
    a ← lift (Np.get q_star t);
    old ← lift (Np.get counts.2 a);
    out_transitions ← lift (Np.set counts.2 a (PrimFloat.add old 1));
    mret (transitions_ij, out_transitions))
  (transitions_ij, out_transitions);
  e ← self_eps;
  assign_A (map (map log) (transition_ratio e counts.1 counts.2)).

End MyHMM.

(** ** Sample instances of the library functions

    Series approximations of the natural logarithm and of [logsumexp], to run
    the methods on concrete inputs.  No theorem below depends on them: the
    theorems hold for every [log] and [logsumexp]. *)

Module Sample.

Local Open Scope float_scope.

Fixpoint atanh_series (n : nat) (z2 zk k : float) : float :=
  match n with
  | O => 0
  | S n' => zk / k + atanh_series n' z2 (zk * z2) (k + 2)
  end.

Definition ln2 : float := 0x1.62e42fefa39efp-1.

Definition log (x : float) : float :=
  if PrimFloat.is_nan x then nan
  else if x <? 0 then nan
  else if x =? 0 then neg_infinity
  else if x =? infinity then infinity
  else
    let (m, e) := PrimFloat.frshiftexp x in
    let z := (m - 1) / (m + 1) in
    (PrimFloat.of_uint63 e - 2101) * ln2
    + 2 * atanh_series 24 (z * z) z 1.

Fixpoint exp_series (n : nat) (x term k : float) : float :=
  match n with
  | O => 0
  | S n' => term + exp_series n' x (term * x / k) (k + 1)
  end.

Definition exp (x : float) : float :=
  let y := exp_series 16 (x / 1024) 1 1 in
  Nat.iter 10 (fun v => v * v) y.

Definition logsumexp (xs : list float) : float :=
  let m := fold_right (fun x acc => if acc <? x then x else acc) neg_infinity xs in
  let m := if (m =? infinity) || (m =? neg_infinity) || PrimFloat.is_nan m then 0 else m in
  m + log (fold_right (fun x acc => exp (x - m) + acc) 0 xs).

End Sample.

(** ** Well-formed inputs *)

#[export] Instance float_inhabited : Inhabited float := populate 0%float.

(** A Model in the sense of the specification: [N] labels, an initial
    vector of length [N] and an [N]-by-[N] transition matrix. *)
Definition model_shape (m : MyHMM) : Prop :=
  N_states m = length (labels m) /\
  length (pi m) = N_states m /\
  length (A m) = N_states m /\
  Forall (fun row => length row = N_states m) (A m).

(** An [r]-by-[c] array, and its entry [t, i] if it has one. *)
Definition shape2 {X} (r c : nat) (a : list (list X)) : Prop :=
  length a = r /\ Forall (fun row => length row = c) a.

Definition lookup2 {X} (a : list (list X)) (t i : nat) : option X :=
  match a !! t with
  | Some row => row !! i
  | None => None
  end.

(** A [T]-by-[L] emission sequence. *)
Definition emission_shape (T L : nat) (E : list (list float)) : Prop :=
  shape2 T L E.

(** The labels numpy accepts as an index into [L] columns. *)
Definition label_in_range (L : nat) (k : Z) : Prop :=
  (- Z.of_nat L <= k < Z.of_nat L)%Z.

Definition labels_in_range (L : nat) (m : MyHMM) : Prop :=
  Forall (label_in_range L) (labels m).

(** An index into an inventory of [L] classes as the specification words
    it: one of [0 .. L-1]. *)
Definition inventory_index (L : nat) (k : Z) : Prop :=
  (0 <= k < Z.of_nat L)%Z.

(** The column a label in range selects: a negative one counts from the end. *)
Definition column_of (L : nat) (k : Z) : nat :=
  Z.to_nat (if (k <? 0)%Z then Z.of_nat L + k else k).

#[export] Instance label_in_range_dec L k : Decision (label_in_range L k).
Proof. unfold label_in_range. apply _. Defined.

(** The [T]-by-[N] matrix with entry [t][j] equal to
    [emission[t][stateLabels[j]]]. *)
Definition restricted (m : MyHMM) (E : list (list float)) : list (list float) :=
  map (fun frame => map (fun k => frame !!! column_of (length frame) k) (labels m)) E.

(** ** The recursions of the specification *)

(** [stateEmission[t][j] = emission[t][stateLabels[j]]]. *)
Definition stateEmission (m : MyHMM) (E : list (list float)) (t j : nat) : float :=
  (E !!! t) !!! column_of (length (E !!! t)) (labels m !!! j).

(** [transitionLogProb[j][i]]. *)
Definition transitionLogProb (m : MyHMM) (j i : nat) : float :=
  (A m !!! j) !!! i.

(** The terms [prev[j] + transitionLogProb[j][i]], for [j] from 0 to [N-1]. *)
Definition candidates (m : MyHMM) (prev : nat -> float) (i : nat) : list float :=
  map (fun j => PrimFloat.add (prev j) (transitionLogProb m j i))
    (seq 0 (N_states m)).

Section Recursions.

Variable logsumexp : list float -> float.

(** The forward trellis. *)
Fixpoint alpha_rec (m : MyHMM) (E : list (list float)) (t i : nat) : float :=
  match t with
  | O => PrimFloat.add (pi m !!! i) (stateEmission m E 0 i)
  | S t' =>
      PrimFloat.add (logsumexp (candidates m (alpha_rec m E t') i))
        (stateEmission m E (S t') i)
  end.

End Recursions.

(** numpy's order on floats for [max] and [argmax]: the IEEE order, with NaN
    above every number. *)
Definition np_le (x y : float) : bool :=
  PrimFloat.is_nan y || PrimFloat.leb x y.

(** [v] is a maximum of [xs]. *)
Definition is_max (v : float) (xs : list float) : Prop :=
  v ∈ xs /\ forall x, x ∈ xs -> np_le x v = true.

(** [j] is the smallest index of a maximum of [xs]. *)
Definition is_first_argmax (j : nat) (xs : list float) : Prop :=
  exists v, xs !! j = Some v /\
    (forall x, x ∈ xs -> np_le x v = true) /\
    (forall k x, k < j -> xs !! k = Some x -> np_le v x = false).

Definition unwrap {X} (d : X) (r : result X) : X :=
  match r with
  | Ok x => x
  | Raise _ => d
  end.

(** The Viterbi score trellis and its backpointers. *)
Fixpoint delta_rec (m : MyHMM) (E : list (list float)) (t i : nat) : float :=
  match t with
  | O => PrimFloat.add (pi m !!! i) (stateEmission m E 0 i)
  | S t' =>
      PrimFloat.add (unwrap 0%float (Np.max (candidates m (delta_rec m E t') i)))
        (stateEmission m E (S t') i)
  end.

Definition psi_rec (m : MyHMM) (E : list (list float)) (t i : nat) : nat :=
  match t with
  | O => 0
  | S t' => unwrap 0 (Np.argmax (candidates m (delta_rec m E t') i))
  end.

(** What the specification asks of a decoded path of [T] frames. *)
Record max_sum_decoding (m : MyHMM) (E : list (list float)) (T : nat)
    (delta : nat -> nat -> float) (psi : nat -> nat -> nat)
    (path : list nat) : Prop := {
  dec_init : forall i, i < N_states m ->
    delta 0 i = PrimFloat.add (pi m !!! i) (stateEmission m E 0 i);
  dec_step : forall t i, 1 <= t < T -> i < N_states m ->
    exists v, is_max v (candidates m (delta (t - 1)) i) /\
      delta t i = PrimFloat.add v (stateEmission m E t i);
  dec_back : forall t i, 1 <= t < T -> i < N_states m ->
    is_first_argmax (psi t i) (candidates m (delta (t - 1)) i);
  dec_length : length path = T;
  dec_term : exists j, path !! (T - 1) = Some j /\
    is_first_argmax j (map (delta (T - 1)) (seq 0 (N_states m)));
  dec_backtrack : forall t, t + 1 < T ->
    exists j, path !! (t + 1) = Some j /\ path !! t = Some (psi (t + 1) j);
  dec_range : forall t j, path !! t = Some j -> j < N_states m
}.

(** ** Counting the transitions of a path *)

(** The number of [t < n] with [path[t] = j] and [path[t+1] = i], and the
    number of [t < n] with [path[t] = j]. *)
Definition count_pairs (path : list nat) (n j i : nat) : nat :=
  length (filter (fun t => path !! t = Some j /\ path !! (t + 1) = Some i) (seq 0 n)).

Definition out_degree (path : list nat) (n j : nat) : nat :=
  length (filter (fun t => path !! t = Some j) (seq 0 n)).

(** The float that [n] additions of [1] to [0.] produce. *)
Definition float_count (n : nat) : float :=
  Nat.iter n (fun x => PrimFloat.add x 1) 0%float.

(** ** The counting loop and the assignment of the re-estimation *)

(** The counting loop of [viterbi_transition_update], for a decoded path
    [q_star], [N] states and [T] frames. *)
Definition count_loop (q_star : list nat) (N T : nat)
  : M (list (list float) * list float) :=
  for_each (range 0 (T - 1)) (fun t counts =>
    a ← lift (Np.get q_star t);
    b ← lift (Np.get q_star (t + 1));
    old ← lift (Np.get2 counts.1 a b);
    transitions_ij ← lift (Np.set2 counts.1 a b (PrimFloat.add old 1));
    a ← lift (Np.get q_star t);
    old ← lift (Np.get counts.2 a);
    out_transitions ← lift (Np.set counts.2 a (PrimFloat.add old 1));
    mret (transitions_ij, out_transitions))
  (Np.zeros2 N N, Np.zeros N).

(** The counts as tables. *)
Definition count_table (path : list nat) (N n : nat) : list (list float) :=
  map (fun j => map (fun i => float_count (count_pairs path n j i)) (seq 0 N)) (seq 0 N).

Definition out_table (path : list nat) (N n : nat) : list float :=
  map (fun j => float_count (out_degree path n j)) (seq 0 N).

Section Assignment.

Variable log : float -> float.

(** The model after [self.A = np.log(...)] for the counts [counts]. *)
Definition updated (w : world) (counts : list (list float) * list float) : world :=
  {| self := {| eps := eps (self w); pi := pi (self w);
                A := map (map log) (transition_ratio (eps (self w)) counts.1 counts.2);
                labels := labels (self w); N_states := N_states (self w) |};
     state_likelihoods := state_likelihoods w |}.

End Assignment.

(** [self.A = a] changes [A] and nothing else. *)
Definition same_but_A (w w' : world) : Prop :=
  eps (self w') = eps (self w) /\
  pi (self w') = pi (self w) /\
  labels (self w') = labels (self w) /\
  N_states (self w') = N_states (self w) /\
  state_likelihoods w' = state_likelihoods w.

(** ** Concrete inputs *)

Set Warnings "-inexact-float".

(** The default of the parameter [eps] of [__init__]. *)
Definition default_eps : float := 1e-200%float.

(** An emission sequence over [L] classes whose frame [t] favours the class
    [classes[t]]. *)
Definition favouring (L : nat) (classes : list nat) : list (list float) :=
  map (fun c => map (fun k => if Nat.eqb k c then (-0.125)%float else (-8)%float)
                  (seq 0 L)) classes.

(** The four-state word model of the script ([fee_HMM] and its like), with
    the labels [sil], [p1], [p2], [sil] as classes 0, 1, 2, 0. *)
Definition word_model : MyHMM :=
  unwrap {| eps := 0; pi := []; A := []; labels := []; N_states := 0 |}
    (__init__ Sample.log [0; 1; 2; 0]%Z [0.5; 0.5; 0; 0]%float
       [[0.9; 0.1; 0; 0]; [0; 0.9; 0.1; 0]; [0; 0; 0.9; 0.1]; [0; 0; 0; 1]]%float
       default_eps).

(** Ten frames: three of [sil], four of [p1], three of [p2]. *)
Definition word_run : world :=
  {| self := word_model;
     state_likelihoods := favouring 3 [0; 0; 0; 1; 1; 1; 1; 2; 2; 2] |}.

(** A two-state model, on frames that stay in state 0 and on frames that
    pass from state 0 to state 1. *)
Definition two_state_model : MyHMM :=
  unwrap {| eps := 0; pi := []; A := []; labels := []; N_states := 0 |}
    (__init__ Sample.log [0; 1]%Z [0.5; 0.5]%float
       [[0.9; 0.1]; [0; 1]]%float default_eps).

Definition staying_run : world :=
  {| self := two_state_model; state_likelihoods := favouring 3 [0; 0; 0] |}.

Definition passing_run : world :=
  {| self := two_state_model; state_likelihoods := favouring 3 [0; 0; 1; 1] |}.

(** A one-state model whose state carries the label [k], on one frame over
    three classes that favours the last class: with the label [-1], which
    numpy counts from the last column, and with the label [3], the first
    one past the columns. *)
Definition one_state_model (k : Z) : MyHMM :=
  unwrap {| eps := 0; pi := []; A := []; labels := []; N_states := 0 |}
    (__init__ Sample.log [k] [1]%float [[1]]%float default_eps).

Definition negative_label_run : world :=
  {| self := one_state_model (-1); state_likelihoods := favouring 3 [2] |}.

Definition out_of_range_run : world :=
  {| self := one_state_model 3; state_likelihoods := favouring 3 [2] |}.

(** ** Reasoning about computations *)

(** [returns c w P]: from [w], [c] returns a value that satisfies [P] and
    leaves the caller's objects as they were. *)
Definition returns {X} (c : M X) (w : world) (P : X -> Prop) : Prop :=
  exists x, c w = (Ok x, w) /\ P x.

(** [preserves R c]: whatever [c] does, and whether it returns or raises, the
    caller's objects before and after are related by [R]. *)
Definition preserves (R : relation world) {X} (c : M X) : Prop :=
  forall w, R w (c w).2.

(** A computation that only calls numpy on local values. *)
Definition pure {X} (c : M X) : Prop := exists r, forall w, c w = (r, w).

Section Logic.

Context {X Y : Type}.

Lemma returns_mret (x : X) w (P : X -> Prop) : P x -> returns (mret x) w P.
Proof. intros HP. exists x. split; [reflexivity | exact HP]. Qed.

Lemma returns_read (f : world -> X) w (P : X -> Prop) :
  P (f w) -> returns (read f) w P.
Proof. intros HP. exists (f w). split; [reflexivity | exact HP]. Qed.

Lemma returns_lift (r : result X) x w (P : X -> Prop) :
  r = Ok x -> P x -> returns (lift r) w P.
Proof. intros -> HP. exists x. split; [reflexivity | exact HP]. Qed.

Lemma returns_bind (c : M X) (k : X -> M Y) w (P : X -> Prop) (Q : Y -> Prop) :
  returns c w P ->
  (forall x, P x -> returns (k x) w Q) ->
  returns (x ← c; k x) w Q.
Proof.
  intros (x & Hc & HP) Hk.
  destruct (Hk x HP) as (y & Hy & HQ).
  exists y. split; [| exact HQ].
  unfold mbind, M_bind, bindM. rewrite Hc. exact Hy.
Qed.

Lemma returns_weaken (c : M X) w (P Q : X -> Prop) :
  returns c w P -> (forall x, P x -> Q x) -> returns c w Q.
Proof. intros (x & Hc & HP) HPQ. exists x. eauto. Qed.

End Logic.

Section Loops.

Context {S : Type}.

(** A loop over [xs] with an invariant on the part of [xs] already done. *)
Lemma returns_for_each (I : list nat -> S -> Prop) xs (body : nat -> S -> M S) s w :
  I [] s ->
  (forall done x rest s, xs = done ++ x :: rest -> I done s ->
     returns (body x s) w (I (done ++ [x]))) ->
  returns (for_each xs body s) w (I xs).
Proof.
  revert I s. induction xs as [| x xs IH]; intros I s H0 Hstep.
  - apply returns_mret. exact H0.
  - cbn [for_each]. eapply returns_bind.
    + apply (Hstep [] x xs s eq_refl H0).
    + intros s' Hs'. cbn in Hs'.
      apply (IH (fun done => I (x :: done))); [exact Hs' |].
      intros done y rest s2 -> HI.
      apply (Hstep (x :: done) y rest s2 eq_refl HI).
Qed.

(** [for t in range(a, b)], invariant on the next index. *)
Lemma returns_for_range (I : nat -> S -> Prop) a b (body : nat -> S -> M S) s w :
  a <= b -> I a s ->
  (forall t s, a <= t < b -> I t s -> returns (body t s) w (I (Datatypes.S t))) ->
  returns (for_each (range a b) body s) w (I b).
Proof.
  intros Hab H0 Hstep.
  eapply returns_weaken.
  - apply (returns_for_each (fun done s => I (a + length done) s)).
    + cbn. rewrite Nat.add_0_r. exact H0.
    + intros done x rest s' Hsplit HI.
      assert (Hx : x = a + length done /\ length done < b - a).
      { unfold range in Hsplit.
        assert (Hl : seq a (b - a) !! length done = Some x).
        { rewrite Hsplit. rewrite list_lookup_middle; done. }
        apply lookup_seq in Hl. lia. }
      destruct Hx as [-> Hlt].
      rewrite length_app. cbn [length].
      replace (a + (length done + 1)) with (Datatypes.S (a + length done)) by lia.
      apply Hstep; [lia | exact HI].
  - intros s'. cbn. unfold range. rewrite length_seq.
    replace (a + (b - a)) with b by lia. tauto.
Qed.

(** [for t in range(n - 1, -1, -1)], invariant on the index last done. *)
Lemma returns_for_range_down (I : nat -> S -> Prop) n
    (body : nat -> S -> M S) s w :
  I n s ->
  (forall t s, t < n -> I (Datatypes.S t) s -> returns (body t s) w (I t)) ->
  returns (for_each (range_down 0 n) body s) w (I 0).
Proof.
  intros H0 Hstep.
  eapply returns_weaken.
  - apply (returns_for_each (fun done s => I (n - length done) s)).
    + cbn. rewrite Nat.sub_0_r. exact H0.
    + intros done x rest s' Hsplit HI.
      assert (Hx : Datatypes.S x = n - length done /\ length done < n).
      { unfold range_down in Hsplit. rewrite Nat.sub_0_r in Hsplit.
        assert (Hl : reverse (seq 0 n) !! length done = Some x).
        { rewrite Hsplit. rewrite list_lookup_middle; done. }
        apply reverse_lookup_Some in Hl. rewrite length_seq in Hl.
        destruct Hl as [Hl Hlen]. apply lookup_seq in Hl. lia. }
      destruct Hx as [Hx Hlt].
      rewrite length_app. cbn [length].
      replace (n - (length done + 1)) with x by lia.
      apply Hstep; [lia |]. rewrite Hx. exact HI.
  - intros s'. cbn. unfold range_down. rewrite length_reverse, length_seq.
    replace (n - (n - 0)) with 0 by lia. tauto.
Qed.

End Loops.

Section Frame.

Context (R : relation world) `{!PreOrder R}.

Lemma preserves_mret {X} (x : X) : preserves R (mret x).
Proof. intros w. cbn. reflexivity. Qed.

Lemma preserves_read {X} (f : world -> X) : preserves R (read f).
Proof. intros w. cbn. reflexivity. Qed.

Lemma preserves_lift {X} (r : result X) : preserves R (lift r).
Proof. intros w. cbn. reflexivity. Qed.

Lemma preserves_bind {X Y} (c : M X) (k : X -> M Y) :
  preserves R c -> (forall x, preserves R (k x)) ->
  preserves R (x ← c; k x).
Proof.
  intros Hc Hk w. unfold mbind, M_bind, bindM.
  specialize (Hc w). destruct (c w) as [[x | e] w1]; cbn in *.
  - etransitivity; [exact Hc | apply Hk].
  - exact Hc.
Qed.

Lemma preserves_for_each {S} xs (body : nat -> S -> M S) s :
  (forall x s, preserves R (body x s)) ->
  preserves R (for_each xs body s).
Proof.
  intros Hb. revert s. induction xs as [| x xs IH]; intros s.
  - apply preserves_mret.
  - cbn [for_each]. apply preserves_bind; [apply Hb | exact IH].
Qed.

End Frame.

(** ** The order of floats that [np.max] and [np.argmax] follow *)

Section FloatOrder.

Import SpecFloat.

Ltac cmp_cases :=
  repeat match goal with
  | H : context [Z.compare ?a ?b] |- _ =>
      destruct (Z.compare_spec a b); cbn in H; try discriminate H
  | |- context [Z.compare ?a ?b] => destruct (Z.compare_spec a b); cbn
  | H : context [Pos.compare_cont Eq ?a ?b] |- _ =>
      change (Pos.compare_cont Eq a b) with (Pos.compare a b) in H
  | |- context [Pos.compare_cont Eq ?a ?b] =>
      change (Pos.compare_cont Eq a b) with (Pos.compare a b)
  | H : context [Pos.compare ?a ?b] |- _ =>
      destruct (Pos.compare_spec a b); cbn in H; try discriminate H
  | |- context [Pos.compare ?a ?b] => destruct (Pos.compare_spec a b); cbn
  end.

Ltac by_cases x y :=
  unfold SFleb, SFltb, SFeqb, SFcompare;
  destruct x as [[] | [] | | [] ? ?], y as [[] | [] | | [] ? ?]; cbn;
  try reflexivity; try discriminate; try congruence.

Lemma SFleb_trans x y z :
  SFleb x y = true -> SFleb y z = true -> SFleb x z = true.
Proof.
  unfold SFleb, SFcompare.
  destruct x as [[] | [] | | [] ? ?], y as [[] | [] | | [] ? ?],
    z as [[] | [] | | [] ? ?]; cbn;
    try reflexivity; try discriminate; intros H1 H2;
    cmp_cases; subst; try reflexivity; try lia; try discriminate.
Qed.

Lemma SFleb_total x y :
  x <> S754_nan -> y <> S754_nan -> SFleb x y = false -> SFleb y x = true.
Proof.
  by_cases x y; intros _ _ H1;
    cmp_cases; subst; try reflexivity; try lia; try discriminate.
Qed.

Lemma SFleb_not_nan x y : SFleb x y = true -> x <> S754_nan /\ y <> S754_nan.
Proof. unfold SFleb, SFcompare. destruct x, y; try discriminate; split; congruence. Qed.

Lemma SFltb_SFleb x y : SFltb x y = true -> SFleb x y = true.
Proof. unfold SFleb, SFltb. destruct (SFcompare x y) as [[] |]; congruence. Qed.

Lemma SFltb_false x y :
  x <> S754_nan -> y <> S754_nan -> SFltb y x = false -> SFleb x y = true.
Proof.
  by_cases x y; intros _ _ H1;
    cmp_cases; subst; try reflexivity; try lia; try discriminate.
Qed.

Lemma SFeqb_refl x : SFeqb x x = true <-> x <> S754_nan.
Proof.
  unfold SFeqb, SFcompare. destruct x as [[] | [] | | [] m e]; cbn;
    rewrite ?Z.compare_refl;
    try change (Pos.compare_cont Eq m m) with (Pos.compare m m);
    rewrite ?Pos.compare_refl; cbn; split; congruence.
Qed.

Lemma is_nan_false x : PrimFloat.is_nan x = false <-> Prim2SF x <> S754_nan.
Proof.
  unfold PrimFloat.is_nan. rewrite FloatAxioms.eqb_spec, negb_false_iff. apply SFeqb_refl.
Qed.

Lemma is_nan_true x : PrimFloat.is_nan x = true <-> Prim2SF x = S754_nan.
Proof.
  destruct (PrimFloat.is_nan x) eqn:Hn.
  - split; [intros _ | reflexivity].
    destruct (Prim2SF x) eqn:Hx; try reflexivity;
      exfalso; assert (Hf : PrimFloat.is_nan x = false)
        by (apply is_nan_false; rewrite Hx; discriminate); congruence.
  - apply is_nan_false in Hn. split; [discriminate | intros; contradiction].
Qed.

Lemma leb_not_nan x y :
  PrimFloat.leb x y = true -> PrimFloat.is_nan x = false /\ PrimFloat.is_nan y = false.
Proof.
  rewrite FloatAxioms.leb_spec, !is_nan_false. apply SFleb_not_nan.
Qed.

Lemma leb_trans x y z :
  PrimFloat.leb x y = true -> PrimFloat.leb y z = true -> PrimFloat.leb x z = true.
Proof. rewrite !FloatAxioms.leb_spec. apply SFleb_trans. Qed.

Lemma leb_total x y :
  PrimFloat.is_nan x = false -> PrimFloat.is_nan y = false ->
  PrimFloat.leb x y = false -> PrimFloat.leb y x = true.
Proof. rewrite !FloatAxioms.leb_spec, !is_nan_false. apply SFleb_total. Qed.

Lemma leb_refl x : PrimFloat.is_nan x = false -> PrimFloat.leb x x = true.
Proof.
  intros Hx. destruct (PrimFloat.leb x x) eqn:Hl; [reflexivity |].
  rewrite <- Hl. apply leb_total; assumption.
Qed.

Lemma ltb_leb x y : PrimFloat.ltb x y = true -> PrimFloat.leb x y = true.
Proof. rewrite FloatAxioms.ltb_spec, FloatAxioms.leb_spec. apply SFltb_SFleb. Qed.

Lemma ltb_false_leb x y :
  PrimFloat.is_nan x = false -> PrimFloat.is_nan y = false ->
  PrimFloat.ltb y x = false -> PrimFloat.leb x y = true.
Proof. rewrite FloatAxioms.ltb_spec, FloatAxioms.leb_spec, !is_nan_false. apply SFltb_false. Qed.

(** [np_le] is a total preorder. *)
Lemma np_le_refl x : np_le x x = true.
Proof.
  unfold np_le. destruct (PrimFloat.is_nan x) eqn:Hx; [reflexivity |].
  cbn. apply leb_refl. exact Hx.
Qed.

Lemma np_le_trans x y z : np_le x y = true -> np_le y z = true -> np_le x z = true.
Proof.
  unfold np_le. destruct (PrimFloat.is_nan z) eqn:Hz; [reflexivity |]. cbn.
  intros Hxy Hyz. destruct (leb_not_nan _ _ Hyz) as [Hy _].
  rewrite Hy in Hxy. cbn in Hxy. eapply leb_trans; eassumption.
Qed.

Lemma np_le_total x y : np_le x y = false -> np_le y x = true.
Proof.
  unfold np_le. intros H. apply orb_false_iff in H as [Hy Hxy].
  destruct (PrimFloat.is_nan x) eqn:Hx; [reflexivity |]. cbn.
  apply leb_total; assumption.
Qed.

Lemma leb_np_le x y : PrimFloat.leb x y = true -> np_le x y = true.
Proof. unfold np_le. intros ->. apply orb_true_r. Qed.

Lemma np_le_nan x y : PrimFloat.is_nan y = true -> np_le x y = true.
Proof. unfold np_le. intros ->. reflexivity. Qed.

(** [np.maximum] returns one of its arguments, and it is above both. *)
Lemma maximum_cases a b : Np.maximum a b = a \/ Np.maximum a b = b.
Proof. unfold Np.maximum. repeat case_match; auto. Qed.

Lemma maximum_upper a b :
  np_le a (Np.maximum a b) = true /\ np_le b (Np.maximum a b) = true.
Proof.
  unfold Np.maximum.
  destruct (PrimFloat.is_nan a) eqn:Ha.
  - split; apply np_le_nan; exact Ha.
  - destruct (PrimFloat.ltb b a) eqn:Hba.
    + split; [apply np_le_refl | apply leb_np_le, ltb_leb, Hba].
    + split; [| apply np_le_refl].
      destruct (PrimFloat.is_nan b) eqn:Hb; [apply np_le_nan, Hb |].
      apply leb_np_le, ltb_false_leb; assumption.
Qed.

Lemma fold_maximum xs x :
  is_max (fold_left Np.maximum xs x) (x :: xs).
Proof.
  revert x. induction xs as [| y xs IH]; intros x; cbn [fold_left].
  - split; [apply list_elem_of_here |].
    intros z Hz. apply list_elem_of_singleton in Hz as ->. apply np_le_refl.
  - destruct (IH (Np.maximum x y)) as [Hin Hup].
    destruct (maximum_upper x y) as [Hx Hy].
    split.
    + apply elem_of_cons in Hin as [Hin | Hin].
      * rewrite Hin. destruct (maximum_cases x y) as [-> | ->].
        -- apply list_elem_of_here.
        -- apply list_elem_of_further, list_elem_of_here.
      * apply list_elem_of_further, list_elem_of_further, Hin.
    + intros z Hz.
      assert (Hm : np_le (Np.maximum x y) (fold_left Np.maximum xs (Np.maximum x y)) = true)
        by (apply Hup, list_elem_of_here).
      apply elem_of_cons in Hz as [-> | Hz].
      * eapply np_le_trans; eassumption.
      * apply elem_of_cons in Hz as [-> | Hz].
        -- eapply np_le_trans; eassumption.
        -- apply Hup, list_elem_of_further, Hz.
Qed.

Lemma max_is_max xs v : Np.max xs = Ok v -> is_max v xs.
Proof.
  destruct xs as [| x xs]; [discriminate |]. cbn. intros [= <-].
  apply fold_maximum.
Qed.

Lemma max_nonempty xs : xs <> [] -> exists v, Np.max xs = Ok v.
Proof. destruct xs; [congruence | eauto]. Qed.

(** The scan of [np.argmax] with what it has seen in [pre]: every entry of
    [pre] is a number at most [mp], the entry at [best] is [mp], and the
    entries before [best] are strictly below it. *)
Lemma argmax_scan_first pre mp best xs :
  pre !! best = Some mp ->
  PrimFloat.is_nan mp = false ->
  (forall x, x ∈ pre -> PrimFloat.leb x mp = true) ->
  (forall k x, k < best -> pre !! k = Some x -> np_le mp x = false) ->
  is_first_argmax (Np.argmax_scan mp best (length pre) xs) (pre ++ xs).
Proof.
  revert pre mp best. induction xs as [| x xs IH]; intros pre mp best Hb Hmp Hle Hlt.
  - cbn. rewrite app_nil_r. exists mp. split; [exact Hb |]. split; [| exact Hlt].
    intros y Hy. apply leb_np_le, Hle, Hy.
  - assert (Hbl : best < length pre) by (eapply lookup_lt_Some; exact Hb).
    assert (Hlen : length (pre ++ [x]) = S (length pre))
      by (rewrite length_app; cbn; lia).
    assert (Happ : pre ++ x :: xs = (pre ++ [x]) ++ xs)
      by (rewrite <- app_assoc; reflexivity).
    cbn [Np.argmax_scan].
    destruct (PrimFloat.leb x mp) eqn:Hx.
    + rewrite Happ, <- Hlen. apply IH.
      * rewrite lookup_app_l; assumption.
      * exact Hmp.
      * intros y Hy. apply elem_of_app in Hy as [Hy | Hy]; [apply Hle, Hy |].
        apply list_elem_of_singleton in Hy as ->. exact Hx.
      * intros k y Hk Hy. rewrite lookup_app_l in Hy by lia. eapply Hlt; eassumption.
    + destruct (PrimFloat.is_nan x) eqn:Hn.
      * exists x. split; [apply list_lookup_middle; lia |].
        split; [intros y _; apply np_le_nan, Hn |].
        intros k y Hk Hy. rewrite lookup_app_l in Hy by lia.
        assert (Hyp : PrimFloat.leb y mp = true)
          by (apply Hle; eapply list_elem_of_lookup_2; exact Hy).
        unfold np_le. destruct (leb_not_nan _ _ Hyp) as [-> _]. cbn.
        destruct (PrimFloat.leb x y) eqn:Hxy; [| reflexivity].
        destruct (leb_not_nan _ _ Hxy) as [Hx' _]. congruence.
      * assert (Hmx : PrimFloat.leb mp x = true) by (apply leb_total; assumption).
        rewrite Happ, <- Hlen. apply IH.
        -- apply list_lookup_middle. reflexivity.
        -- exact Hn.
        -- intros y Hy. apply elem_of_app in Hy as [Hy | Hy].
           ++ eapply leb_trans; [apply Hle, Hy | exact Hmx].
           ++ apply list_elem_of_singleton in Hy as ->. apply leb_refl, Hn.
        -- intros k y Hk Hy. rewrite lookup_app_l in Hy by lia.
           assert (Hyp : PrimFloat.leb y mp = true)
             by (apply Hle; eapply list_elem_of_lookup_2; exact Hy).
           unfold np_le. destruct (leb_not_nan _ _ Hyp) as [-> _]. cbn.
           destruct (PrimFloat.leb x y) eqn:Hxy; [| reflexivity].
           assert (PrimFloat.leb x mp = true) by (eapply leb_trans; eassumption).
           congruence.
Qed.

Lemma argmax_is_first xs j : Np.argmax xs = Ok j -> is_first_argmax j xs.
Proof.
  destruct xs as [| x xs]; [discriminate |]. cbn [Np.argmax].
  destruct (PrimFloat.is_nan x) eqn:Hn; intros [= <-].
  - exists x. split; [reflexivity |].
    split; [intros y _; apply np_le_nan, Hn | intros k y Hk; lia].
  - apply (argmax_scan_first [x] x 0 xs).
    + reflexivity.
    + exact Hn.
    + intros y Hy. apply list_elem_of_singleton in Hy as ->. apply leb_refl, Hn.
    + intros k y Hk. lia.
Qed.

Lemma argmax_nonempty xs : xs <> [] -> exists j, Np.argmax xs = Ok j.
Proof. destruct xs; [congruence | cbn; eauto]. Qed.

Lemma first_argmax_lt j xs : is_first_argmax j xs -> j < length xs.
Proof. intros (v & Hv & _). eapply lookup_lt_Some. exact Hv. Qed.

End FloatOrder.

(** ** Arrays *)

Section Arrays.

Context {X : Type}.
Implicit Types (a : list (list X)) (row v : list X).

Lemma shape2_lookup r c a t :
  shape2 r c a -> t < r -> exists row, a !! t = Some row /\ length row = c.
Proof.
  intros [Hlen Hall] Ht.
  destruct (lookup_lt_is_Some_2 a t) as [row Hrow]; [lia |].
  exists row. split; [exact Hrow |].
  eapply Forall_lookup_1 in Hall; [exact Hall | exact Hrow].
Qed.

Lemma shape2_insert r c a t row :
  shape2 r c a -> length row = c -> shape2 r c (<[t := row]> a).
Proof.
  intros [Hlen Hall] Hrow. split; [rewrite length_insert; exact Hlen |].
  apply Forall_insert; assumption.
Qed.

Lemma shape2_replicate r c (x : X) : shape2 r c (replicate r (replicate c x)).
Proof.
  split; [apply length_replicate |].
  apply Forall_replicate. apply length_replicate.
Qed.

Lemma lookup2_Some a t i x :
  lookup2 a t i = Some x <-> exists row, a !! t = Some row /\ row !! i = Some x.
Proof.
  unfold lookup2. destruct (a !! t) as [row |]; split.
  - intros H. eauto.
  - intros (row' & [= <-] & H). exact H.
  - discriminate.
  - intros (row' & [=] & _).
Qed.

Lemma lookup2_insert_row a t row t' i :
  t < length a ->
  lookup2 (<[t := row]> a) t' i = if decide (t = t') then row !! i else lookup2 a t' i.
Proof.
  intros Ht. unfold lookup2. destruct (decide (t = t')) as [<- | Hne].
  - rewrite list_lookup_insert_eq by exact Ht. reflexivity.
  - rewrite list_lookup_insert_ne by exact Hne. reflexivity.
Qed.

Lemma get_ok {Y} (l : list Y) i x : l !! i = Some x -> Np.get l i = Ok x.
Proof. unfold Np.get. intros ->. reflexivity. Qed.

Lemma get2_ok a t i x : lookup2 a t i = Some x -> Np.get2 a t i = Ok x.
Proof.
  intros H. apply lookup2_Some in H as (row & Hrow & Hx).
  unfold Np.get2. rewrite (get_ok _ _ _ Hrow). cbn. apply get_ok, Hx.
Qed.

Lemma set_ok {Y} (l : list Y) i x : i < length l -> Np.set l i x = Ok (<[i := x]> l).
Proof. unfold Np.set. intros H. rewrite decide_True by exact H. reflexivity. Qed.

Lemma set2_ok a t i x row :
  a !! t = Some row -> i < length row ->
  Np.set2 a t i x = Ok (<[t := <[i := x]> row]> a).
Proof.
  intros Hrow Hi. unfold Np.set2. rewrite (get_ok _ _ _ Hrow). cbn.
  rewrite set_ok by exact Hi. reflexivity.
Qed.

Lemma set_row_ok a t row v :
  a !! t = Some row -> length v = length row ->
  Np.set_row a t v = Ok (<[t := v]> a).
Proof.
  intros Hrow Hv. unfold Np.set_row, Np.broadcast_to. rewrite Hrow.
  rewrite decide_True by exact Hv. reflexivity.
Qed.

Lemma norm_index_last n : 0 < n -> Np.norm_index n (-1) = Ok (n - 1).
Proof.
  intros Hn. unfold Np.norm_index.
  replace ((0 <=? -1)%Z) with false by reflexivity. cbn [andb].
  replace ((- Z.of_nat n <=? -1)%Z) with true by (symmetry; apply Z.leb_le; lia).
  cbn. f_equal. lia.
Qed.

Lemma get_z_last {Y} (l : list Y) x :
  l !! (length l - 1) = Some x -> Np.get_z l (-1) = Ok x.
Proof.
  intros H. unfold Np.get_z.
  rewrite norm_index_last by (apply lookup_lt_Some in H; lia).
  cbn. apply get_ok, H.
Qed.

Lemma set_z_last {Y} (l : list Y) x :
  0 < length l -> Np.set_z l (-1) x = Ok (<[length l - 1 := x]> l).
Proof.
  intros H. unfold Np.set_z. rewrite norm_index_last by exact H.
  cbn. apply set_ok. lia.
Qed.

(** A list is the table of its entries. *)
Lemma list_tabulate (l : list X) n (f : nat -> X) :
  length l = n -> (forall i, i < n -> l !! i = Some (f i)) -> l = map f (seq 0 n).
Proof.
  intros Hlen Hf. apply list_eq. intros i.
  destruct (decide (i < n)) as [Hi | Hi].
  - rewrite Hf by exact Hi.
    change (map f (seq 0 n)) with (f <$> seq 0 n).
    rewrite list_lookup_fmap, lookup_seq_lt by exact Hi. reflexivity.
  - rewrite !lookup_ge_None_2; [reflexivity | |].
    + rewrite length_map, length_seq. lia.
    + lia.
Qed.

Lemma lookup_tabulate n (f : nat -> X) i :
  i < n -> map f (seq 0 n) !! i = Some (f i).
Proof.
  intros Hi. change (map f (seq 0 n)) with (f <$> seq 0 n).
  rewrite list_lookup_fmap, lookup_seq_lt by exact Hi. reflexivity.
Qed.

End Arrays.

(** ** The restriction step *)

Ltac step_read :=
  eapply returns_bind;
  [ eapply (returns_read _ _ (eq _)); reflexivity | intros ? <- ].

Ltac step_lift H :=
  eapply returns_bind;
  [ eapply (returns_lift _ _ _ (eq _)); [ H | reflexivity ] | intros ? <- ].

Ltac run_monad :=
  repeat (progress (unfold mbind, M_bind, bindM, mret, M_ret, retM, read, lift; cbn)).

Section Restriction.

Lemma norm_index_ok n k :
  label_in_range n k ->
  Np.norm_index n k = Ok (column_of n k) /\ column_of n k < n.
Proof.
  unfold label_in_range, Np.norm_index, column_of. intros Hk.
  destruct (Z.ltb_spec k 0) as [Hneg | Hpos].
  - replace ((0 <=? k)%Z) with false by (symmetry; apply Z.leb_gt; lia).
    cbn [andb].
    replace ((- Z.of_nat n <=? k)%Z) with true by (symmetry; apply Z.leb_le; lia).
    cbn [andb]. split; [reflexivity | lia].
  - replace ((0 <=? k)%Z) with true by (symmetry; apply Z.leb_le; lia).
    replace ((k <? Z.of_nat n)%Z) with true by (symmetry; apply Z.ltb_lt; lia).
    cbn [andb]. split; [reflexivity | lia].
Qed.

Lemma norm_index_raises n k :
  ~ label_in_range n k -> Np.norm_index n k = Raise IndexError.
Proof.
  unfold label_in_range, Np.norm_index. intros Hk.
  destruct (Z.leb_spec 0 k), (Z.ltb_spec k (Z.of_nat n)),
    (Z.leb_spec (- Z.of_nat n) k), (Z.ltb_spec k 0); cbn; try reflexivity; lia.
Qed.

Lemma get_z_ok (frame : list float) k :
  label_in_range (length frame) k ->
  Np.get_z frame k = Ok (frame !!! column_of (length frame) k).
Proof.
  intros Hk. destruct (norm_index_ok _ _ Hk) as [Hn Hlt].
  unfold Np.get_z. rewrite Hn. cbn. apply get_ok.
  apply list_lookup_lookup_total_lt. exact Hlt.
Qed.

Lemma take_ok (frame : list float) ks :
  Forall (label_in_range (length frame)) ks ->
  Np.take frame ks = Ok (map (fun k => frame !!! column_of (length frame) k) ks).
Proof.
  induction 1 as [| k ks Hk _ IH]; [reflexivity |].
  cbn [Np.take map]. rewrite (get_z_ok _ _ Hk). cbn. rewrite IH. reflexivity.
Qed.

Lemma take_raises (frame : list float) ks :
  ~ Forall (label_in_range (length frame)) ks ->
  Np.take frame ks = Raise IndexError.
Proof.
  induction ks as [| k ks IH]; intros Hno.
  - destruct Hno. constructor.
  - cbn [Np.take]. destruct (decide (label_in_range (length frame) k)) as [Hk | Hk].
    + rewrite (get_z_ok _ _ Hk). cbn. rewrite IH; [reflexivity |].
      intros Hall. apply Hno. constructor; assumption.
    + unfold Np.get_z. rewrite (norm_index_raises _ _ Hk). reflexivity.
Qed.

Lemma restricted_shape m E T L :
  emission_shape T L E -> shape2 T (length (labels m)) (restricted m E).
Proof.
  intros [Hlen Hall]. unfold restricted. split.
  - rewrite length_map. exact Hlen.
  - apply Forall_forall. intros row Hrow.
    apply list_elem_of_In, in_map_iff in Hrow as (frame & <- & _).
    apply length_map.
Qed.

Lemma restricted_lookup m E t j :
  t < length E -> j < length (labels m) ->
  lookup2 (restricted m E) t j = Some (stateEmission m E t j).
Proof.
  intros Ht Hj. unfold lookup2, restricted, stateEmission.
  change (map ?f E) with (f <$> E).
  rewrite list_lookup_fmap.
  rewrite (list_lookup_lookup_total_lt E t Ht). cbn.
  change (map ?f (labels m)) with (f <$> labels m).
  rewrite list_lookup_fmap.
  rewrite (list_lookup_lookup_total_lt (labels m) j Hj). reflexivity.
Qed.

(** With every label in range the step returns the restricted matrix. *)
Lemma copy_returns w T L :
  N_states (self w) = length (labels (self w)) ->
  emission_shape T L (state_likelihoods w) ->
  labels_in_range L (self w) ->
  returns state_likelihoods_copy w
    (eq (restricted (self w) (state_likelihoods w))).
Proof.
  intros HN [HT HL] Hlab.
  set (m := self w) in *. set (E := state_likelihoods w) in *.
  set (R := restricted m E).
  assert (HRlen : length R = T) by (unfold R, restricted; rewrite length_map; exact HT).
  unfold state_likelihoods_copy, arg_state_likelihoods, self_N_states, self_labels.
  step_read. step_read. fold m E. unfold Np.shape0. rewrite HT.
  eapply returns_weaken.
  - apply (returns_for_range (fun t copy =>
      length copy = T /\
      (forall t', t' < t -> copy !! t' = R !! t') /\
      (forall t', t <= t' < T -> copy !! t' = Some (Np.zeros (N_states m))))).
    + lia.
    + split; [apply length_replicate |]. split; [intros; lia |].
      intros t' Ht'. unfold Np.zeros2. apply lookup_replicate_2. lia.
    + intros t copy Ht (Hlen & Hdone & Htodo).
      step_read. fold E.
      destruct (lookup_lt_is_Some_2 E t) as [frame Hframe]; [lia |].
      step_lift ltac:(apply get_ok; exact Hframe).
      step_read. fold m.
      assert (Hfl : length frame = L)
        by (eapply Forall_lookup_1 in HL; [exact HL | exact Hframe]).
      assert (Hin : Forall (label_in_range (length frame)) (labels m))
        by (rewrite Hfl; exact Hlab).
      step_lift ltac:(apply take_ok; exact Hin).
      eapply returns_lift.
      * eapply set_row_ok; [apply Htodo; lia |].
        rewrite length_map. unfold Np.zeros. rewrite length_replicate. symmetry. exact HN.
      * split; [rewrite length_insert; exact Hlen |]. split.
        -- intros t' Ht'. destruct (decide (t' = t)) as [-> | Hne].
           ++ rewrite list_lookup_insert_eq by lia.
              unfold R, restricted. change (map ?f E) with (f <$> E).
              rewrite list_lookup_fmap, Hframe. reflexivity.
           ++ rewrite list_lookup_insert_ne by congruence. apply Hdone. lia.
        -- intros t' Ht'. rewrite list_lookup_insert_ne by lia. apply Htodo. lia.
  - intros copy (Hlen & Hdone & _). cbn.
    symmetry. apply list_eq. intros t.
    destruct (decide (t < T)) as [Ht | Ht]; [apply Hdone, Ht |].
    rewrite !lookup_ge_None_2; [reflexivity | lia | lia].
Qed.

(** With a frame to read and a label out of range for it, the step raises. *)
Lemma copy_raises w frame E' :
  state_likelihoods w = frame :: E' ->
  ~ Forall (label_in_range (length frame)) (labels (self w)) ->
  state_likelihoods_copy w = (Raise IndexError, w).
Proof.
  destruct w as [m E]. cbn [state_likelihoods self]. intros -> Hno.
  unfold state_likelihoods_copy, arg_state_likelihoods, self_N_states, self_labels.
  run_monad. rewrite (take_raises _ _ Hno). reflexivity.
Qed.

End Restriction.
(** ** The terms of one trellis cell *)

Section Candidates.

Lemma col_ok {X} `{!Inhabited X} (a : list (list X)) i :
  Forall (fun row => i < length row) a ->
  Np.col a i = Ok (map (fun row => row !!! i) a).
Proof.
  induction 1 as [| row a Hrow _ IH]; [reflexivity |].
  cbn [Np.col map]. rewrite (get_ok row i (row !!! i)).
  - cbn. rewrite IH. reflexivity.
  - apply list_lookup_lookup_total_lt. exact Hrow.
Qed.

Lemma add_ok u v :
  length u = length v -> Np.add u v = Ok (zip_with PrimFloat.add u v).
Proof. intros H. unfold Np.add. rewrite decide_True by exact H. reflexivity. Qed.

Lemma zip_with_tabulate {X Y Z'} (h : X -> Y -> Z') (f : nat -> X) (g : nat -> Y) n :
  zip_with h (map f (seq 0 n)) (map g (seq 0 n)) = map (fun j => h (f j) (g j)) (seq 0 n).
Proof.
  generalize 0. induction n as [| n IH]; intros s; [reflexivity |].
  cbn. rewrite IH. reflexivity.
Qed.

Lemma candidates_ok m (f : nat -> float) i :
  model_shape m -> i < N_states m ->
  exists c, Np.col (A m) i = Ok c /\
    Np.add (map f (seq 0 (N_states m))) c = Ok (candidates m f i).
Proof.
  intros (_ & _ & HA & Hrows) Hi.
  exists (map (fun j => transitionLogProb m j i) (seq 0 (N_states m))). split.
  - rewrite col_ok.
    + f_equal. apply list_tabulate; [rewrite length_map; exact HA |].
      intros j Hj. change (map ?g (A m)) with (g <$> A m).
      rewrite list_lookup_fmap.
      rewrite (list_lookup_lookup_total_lt (A m) j) by lia. reflexivity.
    + eapply Forall_impl; [exact Hrows |]. cbn. intros row ->. exact Hi.
  - rewrite add_ok by (rewrite !length_map; reflexivity).
    rewrite zip_with_tabulate. reflexivity.
Qed.

Lemma candidates_length m f i : length (candidates m f i) = N_states m.
Proof. unfold candidates. rewrite length_map, length_seq. reflexivity. Qed.

Lemma lookup2_set2 {X} (a : list (list X)) t i x row t' i' :
  a !! t = Some row -> i < length row ->
  lookup2 (<[t := <[i := x]> row]> a) t' i' =
    if decide (t = t' /\ i = i') then Some x else lookup2 a t' i'.
Proof.
  intros Hrow Hi.
  rewrite lookup2_insert_row by (eapply lookup_lt_Some; exact Hrow).
  destruct (decide (t = t')) as [<- | Hne].
  - destruct (decide (i = i')) as [<- | Hni].
    + rewrite decide_True by auto. apply list_lookup_insert_eq, Hi.
    + rewrite decide_False by tauto. rewrite list_lookup_insert_ne by exact Hni.
      unfold lookup2. rewrite Hrow. reflexivity.
  - rewrite decide_False by tauto. reflexivity.
Qed.

(** A row of a trellis whose cells are known is the table of those cells. *)
Lemma row_tabulate {X} (a : list (list X)) r c t (f : nat -> X) :
  shape2 r c a -> t < r ->
  (forall i, i < c -> lookup2 a t i = Some (f i)) ->
  a !! t = Some (map f (seq 0 c)).
Proof.
  intros Hs Ht Hf. destruct (shape2_lookup r c a t Hs Ht) as (row & Hrow & Hlen).
  rewrite Hrow. f_equal. apply list_tabulate; [exact Hlen |].
  intros i Hi. specialize (Hf i Hi). unfold lookup2 in Hf. rewrite Hrow in Hf. exact Hf.
Qed.

End Candidates.

(** ** Forward evaluation *)

Section Forward.

Variable logsumexp : list float -> float.

Lemma first_row_ok m E T L :
  model_shape m -> 1 <= T -> emission_shape T L E ->
  exists e0,
    restricted m E !! 0 = Some e0 /\
    Np.add (pi m) e0 =
      Ok (map (fun i => PrimFloat.add (pi m !!! i) (stateEmission m E 0 i))
            (seq 0 (N_states m))).
Proof.
  intros (HN & Hpi & _) HT HE.
  pose proof (restricted_shape m E T L HE) as HR. rewrite <- HN in HR.
  assert (H0 : restricted m E !! 0 = Some (map (stateEmission m E 0) (seq 0 (N_states m)))).
  { eapply row_tabulate; [exact HR | lia |].
    intros i Hi. apply restricted_lookup; [destruct HE as [-> _]; lia | lia]. }
  eexists. split; [exact H0 |].
  rewrite add_ok by (rewrite length_map, length_seq; exact Hpi).
  f_equal.
  rewrite (list_tabulate (pi m) (N_states m) (fun i => pi m !!! i) Hpi).
  - rewrite zip_with_tabulate. apply map_ext_in. intros i Hi.
    apply in_seq in Hi.
    rewrite <- (list_tabulate (pi m) (N_states m) (fun i => pi m !!! i) Hpi); [reflexivity |].
    intros j Hj. apply list_lookup_lookup_total_lt. lia.
  - intros j Hj. apply list_lookup_lookup_total_lt. lia.
Qed.

(** C1: for a model of N >= 1 states and an emission sequence of T >= 1
    frames, [forward] returns [alpha[T-1][N-1]], the entry of the last state
    at the last frame of the trellis defined by
    [alpha[0][i] = initialLogProb[i] + stateEmission[0][i]] and
    [alpha[t][i] = logsumexp_j (alpha[t-1][j] + transitionLogProb[j][i])
    + stateEmission[t][i]]; it takes no sum over the states of the last
    frame, and the caller's objects are as before the call. *)
Theorem forward_final_state_score (w : world) (T L : nat) :
  model_shape (self w) ->
  1 <= N_states (self w) ->
  1 <= T ->
  emission_shape T L (state_likelihoods w) ->
  labels_in_range L (self w) ->
  forward logsumexp w =
    (Ok (alpha_rec logsumexp (self w) (state_likelihoods w) (T - 1)
           (N_states (self w) - 1)), w).
Proof.
  intros Hm HN1 HT1 HE Hlab.
  set (m := self w) in *. set (E := state_likelihoods w) in *.
  set (N := N_states m) in *.
  pose proof Hm as (HNl & Hpi & HA & HArows).
  pose proof (restricted_shape m E T L HE) as HR. rewrite <- HNl in HR. fold N in HR.
  assert (HEl : length E = T) by (destruct HE; assumption).
  cut (returns (forward logsumexp) w
         (eq (alpha_rec logsumexp m E (T - 1) (N - 1)))).
  { intros (x & Hx & <-). exact Hx. }
  unfold forward, self_N_states, self_pi, self_A.
  eapply returns_bind; [eapply copy_returns; eassumption |].
  intros R <-. fold m E.
  set (R := restricted m E) in *.
  assert (HRl : Np.shape0 R = T) by (destruct HR; assumption). rewrite HRl.
  step_read. fold m N. step_read. fold m.
  destruct (first_row_ok m E T L Hm HT1 HE) as (e0 & He0 & Hadd). fold R N in He0, Hadd.
  step_lift ltac:(apply get_ok; exact He0).
  step_lift ltac:(exact Hadd).
  step_lift ltac:(eapply set_row_ok;
    [ apply lookup_replicate_2; lia
    | rewrite length_map, length_seq; unfold Np.zeros; rewrite length_replicate; reflexivity ]).
  eapply returns_bind.
  - apply (returns_for_range (fun t alpha =>
      shape2 T N alpha /\
      forall t' i, t' < t -> i < N ->
        lookup2 alpha t' i = Some (alpha_rec logsumexp m E t' i))).
    + exact HT1.
    + split.
      * apply shape2_insert; [apply shape2_replicate |].
        rewrite length_map, length_seq. reflexivity.
      * intros t' i Ht' Hi. assert (t' = 0) as -> by lia.
        rewrite lookup2_insert_row by (unfold Np.zeros2; rewrite length_replicate; lia).
        rewrite decide_True by reflexivity.
        rewrite lookup_tabulate by exact Hi. reflexivity.
    + intros t alpha Ht (Hs & Hdone).
      step_read. fold m N.
      eapply returns_weaken.
      * apply (returns_for_range (fun i alpha =>
          shape2 T N alpha /\
          (forall t' i', t' < t -> i' < N ->
             lookup2 alpha t' i' = Some (alpha_rec logsumexp m E t' i')) /\
          (forall i', i' < i ->
             lookup2 alpha t i' = Some (alpha_rec logsumexp m E t i')))).
        -- lia.
        -- split; [exact Hs |]. split; [exact Hdone | intros; lia].
        -- intros i a Hi (Hsa & Hprev & Hcur).
           assert (Hrow : a !! (t - 1) = Some (map (alpha_rec logsumexp m E (t - 1)) (seq 0 N))).
           { eapply row_tabulate; [exact Hsa | lia |].
             intros j Hj. apply Hprev; lia. }
           step_lift ltac:(apply get_ok; exact Hrow).
           step_read. fold m.
           destruct (candidates_ok m (alpha_rec logsumexp m E (t - 1)) i Hm) as (c & Hc & Hs'); [lia |].
           fold N in Hs'.
           step_lift ltac:(exact Hc).
           step_lift ltac:(exact Hs').
           step_lift ltac:(apply get2_ok; apply restricted_lookup; lia).
           destruct (shape2_lookup T N a t Hsa) as (row & Hrowt & Hrl); [lia |].
           eapply returns_lift; [eapply set2_ok; [exact Hrowt | lia] |].
           split; [apply shape2_insert; [exact Hsa | rewrite length_insert; exact Hrl] |].
           split.
           ++ intros t' i' Ht' Hi'. rewrite (lookup2_set2 a t i _ row) by (assumption || lia).
              rewrite decide_False by lia. apply Hprev; assumption.
           ++ intros i' Hi'. rewrite (lookup2_set2 a t i _ row) by (assumption || lia).
              destruct (decide (t = t /\ i = i')) as [[_ <-] | Hne].
              ** f_equal. destruct t as [| t0]; [lia |].
                 replace (S t0 - 1) with t0 by lia. reflexivity.
              ** apply Hcur. lia.
      * intros a (Hsa & Hprev & Hcur). split; [exact Hsa |].
        intros t' i' Ht' Hi'. destruct (decide (t' = t)) as [-> | Hne].
        -- apply Hcur, Hi'.
        -- apply Hprev; lia.
  - intros alpha (Hs & Hall).
    assert (Hlast : alpha !! (T - 1) = Some (map (alpha_rec logsumexp m E (T - 1)) (seq 0 N))).
    { eapply row_tabulate; [exact Hs | lia |]. intros i Hi. apply Hall; lia. }
    assert (Hal : length alpha = T) by (destruct Hs; assumption).
    step_lift ltac:(apply get_z_last; rewrite Hal; exact Hlast).
    eapply returns_lift; [| reflexivity].
    apply get_z_last. rewrite length_map, length_seq.
    apply lookup_tabulate. lia.
Qed.

End Forward.

(** ** Viterbi decoding *)

Section Viterbi.

Lemma set_row_scalar {X} (a : list (list X)) t row x :
  a !! t = Some row ->
  Np.set_row a t [x] = Ok (<[t := replicate (length row) x]> a).
Proof.
  intros Hrow. unfold Np.set_row, Np.broadcast_to. rewrite Hrow.
  destruct (decide (length [x] = length row)) as [Hl | Hl]; [| reflexivity].
  cbn in Hl. rewrite <- Hl. reflexivity.
Qed.

Lemma candidates_nonempty m f i : 1 <= N_states m -> candidates m f i <> [].
Proof.
  intros HN Hnil. apply (f_equal length) in Hnil.
  rewrite candidates_length in Hnil. cbn in Hnil. lia.
Qed.

Lemma max_unwrap xs : xs <> [] -> Np.max xs = Ok (unwrap 0%float (Np.max xs)).
Proof. intros H. destruct (max_nonempty xs H) as [v ->]. reflexivity. Qed.

Lemma argmax_unwrap xs : xs <> [] -> Np.argmax xs = Ok (unwrap 0 (Np.argmax xs)).
Proof. intros H. destruct (argmax_nonempty xs H) as [v ->]. reflexivity. Qed.

Lemma argmax_unwrap_lt xs : xs <> [] -> unwrap 0 (Np.argmax xs) < length xs.
Proof.
  intros H. apply first_argmax_lt, argmax_is_first, argmax_unwrap, H.
Qed.

Lemma psi_rec_lt m E t i : 1 <= N_states m -> psi_rec m E t i < N_states m.
Proof.
  intros HN. destruct t as [| t]; cbn [psi_rec]; [lia |].
  pose proof (argmax_unwrap_lt _ (candidates_nonempty m (delta_rec m E t) i HN)) as H.
  rewrite candidates_length in H. exact H.
Qed.

(** What [viterbi] returns, in terms of the two trellises. *)
Lemma viterbi_returns (w : world) (T L : nat) :
  model_shape (self w) ->
  1 <= N_states (self w) ->
  1 <= T ->
  emission_shape T L (state_likelihoods w) ->
  labels_in_range L (self w) ->
  returns viterbi w (fun q_star =>
    let m := self w in
    let E := state_likelihoods w in
    length q_star = T /\
    q_star !! (T - 1) =
      Some (unwrap 0 (Np.argmax (map (delta_rec m E (T - 1)) (seq 0 (N_states m))))) /\
    (forall t, t + 1 < T ->
       exists j, q_star !! (t + 1) = Some j /\ q_star !! t = Some (psi_rec m E (t + 1) j)) /\
    (forall t j, q_star !! t = Some j -> j < N_states m)).
Proof.
  intros Hm HN1 HT1 HE Hlab.
  set (m := self w) in *. set (E := state_likelihoods w) in *.
  set (N := N_states m) in *.
  pose proof Hm as (HNl & Hpi & HA & HArows).
  pose proof (restricted_shape m E T L HE) as HR. rewrite <- HNl in HR. fold N in HR.
  assert (HEl : length E = T) by (destruct HE; assumption).
  unfold viterbi, self_N_states, self_pi, self_A.
  eapply returns_bind; [eapply copy_returns; eassumption |].
  intros R <-. fold m E.
  set (R := restricted m E) in *.
  assert (HRl : Np.shape0 R = T) by (destruct HR; assumption). rewrite HRl.
  step_read. fold m N. step_read. fold m.
  destruct (first_row_ok m E T L Hm HT1 HE) as (e0 & He0 & Hadd). fold R N in He0, Hadd.
  step_lift ltac:(apply get_ok; exact He0).
  step_lift ltac:(exact Hadd).
  step_lift ltac:(eapply set_row_ok;
    [ apply lookup_replicate_2; lia
    | rewrite length_map, length_seq; unfold Np.zeros; rewrite length_replicate; reflexivity ]).
  step_read. fold m N.
  step_lift ltac:(eapply set_row_scalar; apply lookup_replicate_2; lia).
  rewrite length_replicate.
  set (delta_of := delta_rec m E). set (psi_of := psi_rec m E).
  eapply returns_bind.
  - apply (returns_for_range (fun t (dp : list (list float) * list (list nat)) =>
      shape2 T N dp.1 /\ shape2 T N dp.2 /\
      forall t' i, t' < t -> i < N ->
        lookup2 dp.1 t' i = Some (delta_of t' i) /\
        lookup2 dp.2 t' i = Some (psi_of t' i))).
    + exact HT1.
    + cbn [fst snd]. split; [| split].
      * apply shape2_insert; [apply shape2_replicate |].
        rewrite length_map, length_seq. reflexivity.
      * apply shape2_insert; [apply shape2_replicate | apply length_replicate].
      * intros t' i Ht' Hi. assert (t' = 0) as -> by lia.
        rewrite !lookup2_insert_row by (unfold Np.zeros2; rewrite length_replicate; lia).
        rewrite !decide_True by reflexivity.
        rewrite lookup_tabulate by exact Hi.
        rewrite lookup_replicate_2 by exact Hi. split; reflexivity.
    + intros t dp0 Ht (Hs1 & Hs2 & Hdone).
      step_read. fold m N.
      eapply returns_weaken.
      * apply (returns_for_range (fun i (dp : list (list float) * list (list nat)) =>
          shape2 T N dp.1 /\ shape2 T N dp.2 /\
          (forall t' i', t' < t -> i' < N ->
             lookup2 dp.1 t' i' = Some (delta_of t' i') /\
             lookup2 dp.2 t' i' = Some (psi_of t' i')) /\
          (forall i', i' < i ->
             lookup2 dp.1 t i' = Some (delta_of t i') /\
             lookup2 dp.2 t i' = Some (psi_of t i')))).
        -- lia.
        -- split; [exact Hs1 |]. split; [exact Hs2 |].
           split; [exact Hdone | intros; lia].
        -- intros i [d p] Hi (Hsd & Hsp & Hprev & Hcur). cbn [fst snd] in *.
           assert (Hrow : d !! (t - 1) = Some (map (delta_of (t - 1)) (seq 0 N))).
           { eapply row_tabulate; [exact Hsd | lia |].
             intros j Hj. apply Hprev; lia. }
           destruct (candidates_ok m (delta_of (t - 1)) i Hm) as (c & Hc & Hs'); [lia |].
           fold N in Hs'.
           pose proof (candidates_nonempty m (delta_of (t - 1)) i HN1) as Hne.
           destruct (shape2_lookup T N d t Hsd) as (rowd & Hrowd & Hrdl); [lia |].
           destruct (shape2_lookup T N p t Hsp) as (rowp & Hrowp & Hrpl); [lia |].
           step_lift ltac:(apply get_ok; exact Hrow).
           step_read. fold m.
           step_lift ltac:(exact Hc).
           step_lift ltac:(exact Hs').
           step_lift ltac:(apply max_unwrap; exact Hne).
           step_lift ltac:(apply get2_ok; apply restricted_lookup; lia).
           step_lift ltac:(eapply set2_ok; [exact Hrowd | lia]).
           step_lift ltac:(apply get_ok; rewrite list_lookup_insert_ne by lia; exact Hrow).
           step_read. fold m.
           step_lift ltac:(exact Hc).
           step_lift ltac:(exact Hs').
           step_lift ltac:(apply argmax_unwrap; exact Hne).
           step_lift ltac:(eapply set2_ok; [exact Hrowp | lia]).
           apply returns_mret. cbn [fst snd].
           split; [apply shape2_insert; [exact Hsd | rewrite length_insert; exact Hrdl] |].
           split; [apply shape2_insert; [exact Hsp | rewrite length_insert; exact Hrpl] |].
           assert (Hd : delta_of t i =
             PrimFloat.add (unwrap 0%float (Np.max (candidates m (delta_of (t - 1)) i)))
               (stateEmission m E t i)).
           { destruct t as [| t0]; [lia |].
             replace (S t0 - 1) with t0 by lia. reflexivity. }
           assert (Hp : psi_of t i = unwrap 0 (Np.argmax (candidates m (delta_of (t - 1)) i))).
           { destruct t as [| t0]; [lia |].
             replace (S t0 - 1) with t0 by lia. reflexivity. }
           split.
           ++ intros t' i' Ht' Hi'.
              rewrite (lookup2_set2 d t i _ rowd), (lookup2_set2 p t i _ rowp)
                by (assumption || lia).
              rewrite !decide_False by lia. apply Hprev; assumption.
           ++ intros i' Hi'.
              rewrite (lookup2_set2 d t i _ rowd), (lookup2_set2 p t i _ rowp)
                by (assumption || lia).
              destruct (decide (t = t /\ i = i')) as [[_ <-] | Hni].
              ** rewrite Hd, Hp. split; reflexivity.
              ** apply Hcur. lia.
      * intros dp (Hsd & Hsp & Hprev & Hcur). split; [exact Hsd |]. split; [exact Hsp |].
        intros t' i' Ht' Hi'. destruct (decide (t' = t)) as [-> | Hne].
        -- apply Hcur, Hi'.
        -- apply Hprev; lia.
  - intros [delta psi] (Hsd & Hsp & Hall). cbn [fst snd] in *.
    assert (Hlast : delta !! (T - 1) = Some (map (delta_of (T - 1)) (seq 0 N))).
    { eapply row_tabulate; [exact Hsd | lia |]. intros i Hi. apply Hall; lia. }
    assert (Hdl : length delta = T) by (destruct Hsd; assumption).
    assert (Hne : map (delta_of (T - 1)) (seq 0 N) <> []).
    { intros Hnil. apply (f_equal length) in Hnil.
      rewrite length_map, length_seq in Hnil. cbn in Hnil. lia. }
    set (j0 := unwrap 0 (Np.argmax (map (delta_of (T - 1)) (seq 0 N)))).
    assert (Hj0 : j0 < N).
    { pose proof (argmax_unwrap_lt _ Hne) as H.
      rewrite length_map, length_seq in H. exact H. }
    step_lift ltac:(apply get_z_last; rewrite Hdl; exact Hlast).
    step_lift ltac:(apply argmax_unwrap; exact Hne). fold j0.
    step_lift ltac:(apply set_z_last; rewrite length_replicate; lia).
    rewrite length_replicate.
    eapply returns_weaken.
    + apply (returns_for_range_down (fun t q =>
        length q = T /\
        q !! (T - 1) = Some j0 /\
        (forall t', t <= t' -> t' + 1 < T ->
           exists j, q !! (t' + 1) = Some j /\ q !! t' = Some (psi_of (t' + 1) j)) /\
        (forall t' j, t <= t' -> q !! t' = Some j -> j < N))).
      * split; [rewrite length_insert; apply length_replicate |].
        split; [apply list_lookup_insert_eq; rewrite length_replicate; lia |].
        split; [intros; lia |].
        intros t' j Ht' Hq.
        assert (t' < T).
        { apply lookup_lt_Some in Hq. rewrite length_insert, length_replicate in Hq. lia. }
        assert (t' = T - 1) as -> by lia.
        rewrite list_lookup_insert_eq in Hq by (rewrite length_replicate; lia).
        congruence.
      * intros t q Ht (Hql & Hqlast & Hback & Hrange).
        destruct (lookup_lt_is_Some_2 q (t + 1)) as [j Hj]; [lia |].
        assert (HjN : j < N) by (eapply Hrange; [| exact Hj]; lia).
        step_lift ltac:(apply get_ok; exact Hj).
        step_lift ltac:(apply get2_ok; apply Hall; lia).
        eapply returns_lift; [apply set_ok; lia |].
        split; [rewrite length_insert; exact Hql |].
        split; [rewrite list_lookup_insert_ne by lia; exact Hqlast |].
        split.
        -- intros t' Ht' Ht'T. destruct (decide (t' = t)) as [-> | Hne'].
           ++ exists j. rewrite list_lookup_insert_ne by lia.
              rewrite list_lookup_insert_eq by lia. split; [exact Hj | reflexivity].
           ++ rewrite !list_lookup_insert_ne by lia. apply Hback; lia.
        -- intros t' j' Ht' Hq'. destruct (decide (t' = t)) as [-> | Hne'].
           ++ rewrite list_lookup_insert_eq in Hq' by lia.
              injection Hq' as <-. apply psi_rec_lt. exact HN1.
           ++ rewrite list_lookup_insert_ne in Hq' by lia.
              eapply Hrange; [| exact Hq']. lia.
    + intros q (Hql & Hqlast & Hback & Hrange). cbn zeta.
      split; [exact Hql |]. split; [exact Hqlast |].
      split; [intros t Ht; apply Hback; lia |].
      intros t j Hq. eapply Hrange; [| exact Hq]. lia.
Qed.

(** C2: for a model of N >= 1 states and an emission sequence of T >= 1
    frames, [viterbi] returns a path of length T that the max-sum recursion
    determines: [delta[t][i]] is a maximum over [j] of
    [delta[t-1][j] + transitionLogProb[j][i]] plus [stateEmission[t][i]],
    [psi[t][i]] is the smallest index [j] of such a maximum, the last entry of
    the path is the smallest index of a maximum of [delta[T-1]], every
    earlier entry is [psi[t+1][path[t+1]]], and every entry is below N. *)
Theorem viterbi_max_sum_path (w : world) (T L : nat) :
  model_shape (self w) ->
  1 <= N_states (self w) ->
  1 <= T ->
  emission_shape T L (state_likelihoods w) ->
  labels_in_range L (self w) ->
  exists path,
    viterbi w = (Ok path, w) /\
    max_sum_decoding (self w) (state_likelihoods w) T
      (delta_rec (self w) (state_likelihoods w))
      (psi_rec (self w) (state_likelihoods w)) path.
Proof.
  intros Hm HN1 HT1 HE Hlab.
  destruct (viterbi_returns w T L Hm HN1 HT1 HE Hlab)
    as (path & Hrun & Hlen & Hlast & Hback & Hrange).
  exists path. split; [exact Hrun |].
  set (m := self w) in *. set (E := state_likelihoods w) in *.
  split.
  - intros i _. reflexivity.
  - intros t i Ht Hi. destruct t as [| t]; [lia |].
    replace (S t - 1) with t by lia.
    exists (unwrap 0%float (Np.max (candidates m (delta_rec m E t) i))).
    split; [| reflexivity].
    apply max_is_max, max_unwrap, candidates_nonempty, HN1.
  - intros t i Ht Hi. destruct t as [| t]; [lia |].
    replace (S t - 1) with t by lia.
    apply argmax_is_first, argmax_unwrap, candidates_nonempty, HN1.
  - exact Hlen.
  - eexists. split; [exact Hlast |].
    apply argmax_is_first, argmax_unwrap.
    intros Hnil. apply (f_equal length) in Hnil.
    rewrite length_map, length_seq in Hnil. cbn in Hnil. lia.
  - exact Hback.
  - exact Hrange.
Qed.

End Viterbi.

(** ** What the methods leave untouched *)

Ltac frame_steps :=
  repeat match goal with
  | |- PreOrder _ => apply _
  | |- preserves _ (mbind _ _) => apply preserves_bind
  | |- preserves _ (for_each _ _ _) => apply preserves_for_each
  | |- preserves _ (read _) => apply preserves_read
  | |- preserves _ (lift _) => apply preserves_lift
  | |- preserves _ (mret _) => apply preserves_mret
  | |- forall _, _ => intro
  end.

#[export] Instance same_but_A_preorder : PreOrder same_but_A.
Proof.
  split.
  - intros w. repeat split.
  - intros w1 w2 w3 (H1 & H2 & H3 & H4 & H5) (H1' & H2' & H3' & H4' & H5').
    repeat split; congruence.
Qed.

Lemma preserves_eq_weaken (R : relation world) `{!Reflexive R} {X} (c : M X) :
  preserves eq c -> preserves R c.
Proof. intros Hc w. rewrite <- (Hc w). reflexivity. Qed.

Lemma preserves_assign_A a : preserves same_but_A (assign_A a).
Proof. intros w. repeat split. Qed.

Section Frames.

Variable log : float -> float.
Variable logsumexp : list float -> float.

Lemma state_likelihoods_copy_readonly : preserves eq state_likelihoods_copy.
Proof.
  unfold state_likelihoods_copy, arg_state_likelihoods, self_N_states, self_labels.
  frame_steps.
Qed.

Lemma forward_readonly : preserves eq (forward logsumexp).
Proof.
  unfold forward, self_N_states, self_pi, self_A.
  frame_steps. apply state_likelihoods_copy_readonly.
Qed.

Lemma viterbi_readonly : preserves eq viterbi.
Proof.
  unfold viterbi, self_N_states, self_pi, self_A.
  frame_steps. apply state_likelihoods_copy_readonly.
Qed.

Lemma viterbi_transition_update_frame :
  preserves same_but_A (viterbi_transition_update log).
Proof.
  unfold viterbi_transition_update, self_N_states, self_eps, arg_state_likelihoods.
  frame_steps.
  - apply preserves_eq_weaken; [apply _ | apply viterbi_readonly].
  - apply preserves_assign_A.
Qed.

(** C10: [forward] and [viterbi] write no attribute of the model ([eps],
    [pi], [A], [labels], [N_states]) and leave the emission array they are
    given as it is, whether they return or raise: the restriction step fills
    an array of its own.  A second call therefore starts from the same state
    and gives the same result. *)
Theorem forward_viterbi_readonly (w : world) :
  (state_likelihoods_copy w).2 = w /\
  (forward logsumexp w).2 = w /\
  (viterbi w).2 = w /\
  forward logsumexp (forward logsumexp w).2 = forward logsumexp w /\
  viterbi (viterbi w).2 = viterbi w.
Proof.
  pose proof (state_likelihoods_copy_readonly w) as Hc.
  pose proof (forward_readonly w) as Hf.
  pose proof (viterbi_readonly w) as Hv.
  repeat split; try congruence.
Qed.

(** C8: [viterbi_transition_update] replaces the attribute [A] only: after
    the call, returned or raised, [pi], [labels], [eps] (and [N_states], and
    the emission array) are what they were. *)
Theorem viterbi_transition_update_writes_only_A (w : world) :
  let w' := (viterbi_transition_update log w).2 in
  pi (self w') = pi (self w) /\
  labels (self w') = labels (self w) /\
  eps (self w') = eps (self w) /\
  N_states (self w') = N_states (self w) /\
  state_likelihoods w' = state_likelihoods w.
Proof.
  destruct (viterbi_transition_update_frame w) as (H1 & H2 & H3 & H4 & H5).
  cbn zeta. auto.
Qed.

(** C5: on an emission sequence without frames (T = 0) both [forward] and
    [viterbi] raise, whatever the model: reading frame 0 for the first row
    of the trellis fails before any entry is computed (Python's
    [IndexError] stands for the specification's EmptySequence), and nothing
    has been written. *)
Theorem empty_sequence_rejected (m : MyHMM) :
  let w := {| self := m; state_likelihoods := [] |} in
  forward logsumexp w = (Raise IndexError, w) /\
  viterbi w = (Raise IndexError, w).
Proof. split; reflexivity. Qed.

End Frames.

(** ** Transition re-estimation *)

Lemma pure_lift {X} (r : result X) : pure (lift r).
Proof. exists r. reflexivity. Qed.

Lemma pure_mret {X} (x : X) : pure (mret x).
Proof. exists (Ok x). reflexivity. Qed.

Lemma pure_bind {X Y} (c : M X) (k : X -> M Y) :
  pure c -> (forall x, pure (k x)) -> pure (x ← c; k x).
Proof.
  intros [r Hr] Hk. destruct r as [x | e].
  - destruct (Hk x) as [r' Hr']. exists r'. intros w.
    unfold mbind, M_bind, bindM. rewrite Hr. apply Hr'.
  - exists (Raise e). intros w. unfold mbind, M_bind, bindM. rewrite Hr. reflexivity.
Qed.

Lemma pure_for_each {S} xs (body : nat -> S -> M S) s :
  (forall x s, pure (body x s)) -> pure (for_each xs body s).
Proof.
  intros Hb. revert s. induction xs as [| x xs IH]; intros s.
  - apply pure_mret.
  - cbn [for_each]. apply pure_bind; [apply Hb | exact IH].
Qed.

Lemma count_loop_pure q_star N T : pure (count_loop q_star N T).
Proof.
  unfold count_loop. apply pure_for_each. intros t counts.
  repeat (apply pure_bind; [apply pure_lift | intros ?]). apply pure_mret.
Qed.

Lemma float_count_S n : float_count (S n) = PrimFloat.add (float_count n) 1.
Proof. reflexivity. Qed.

Lemma count_pairs_S path n j i :
  count_pairs path (S n) j i =
    count_pairs path n j i +
      (if decide (path !! n = Some j /\ path !! (n + 1) = Some i) then 1 else 0).
Proof.
  unfold count_pairs. rewrite seq_S, filter_app, length_app. cbn [Nat.add].
  f_equal. rewrite filter_cons, filter_nil.
  destruct (decide _); reflexivity.
Qed.

Lemma out_degree_S path n j :
  out_degree path (S n) j =
    out_degree path n j + (if decide (path !! n = Some j) then 1 else 0).
Proof.
  unfold out_degree. rewrite seq_S, filter_app, length_app. cbn [Nat.add].
  f_equal. rewrite filter_cons, filter_nil.
  destruct (decide _); reflexivity.
Qed.

Lemma count_pairs_le_out_degree path n j i :
  count_pairs path n j i <= out_degree path n j.
Proof.
  induction n as [| n IH]; [reflexivity |].
  rewrite count_pairs_S, out_degree_S.
  repeat destruct (decide _); try lia. tauto.
Qed.

(** The loop returns the two tables of counts. *)
Lemma count_loop_returns q_star N T w :
  length q_star = T ->
  (forall t j, q_star !! t = Some j -> j < N) ->
  count_loop q_star N T w =
    (Ok (count_table q_star N (T - 1), out_table q_star N (T - 1)), w).
Proof.
  intros Hlen Hrange.
  cut (returns (count_loop q_star N T) w
         (eq (count_table q_star N (T - 1), out_table q_star N (T - 1)))).
  { intros (x & Hx & <-). exact Hx. }
  unfold count_loop. eapply returns_weaken.
  - apply (returns_for_range (fun t (counts : list (list float) * list float) =>
      shape2 N N counts.1 /\ length counts.2 = N /\
      (forall j i, j < N -> i < N ->
         lookup2 counts.1 j i = Some (float_count (count_pairs q_star t j i))) /\
      (forall j, j < N ->
         counts.2 !! j = Some (float_count (out_degree q_star t j))))).
    + lia.
    + cbn [fst snd]. split; [apply shape2_replicate |].
      split; [apply length_replicate |]. split.
      * intros j i Hj Hi. unfold lookup2, Np.zeros2, Np.zeros.
        rewrite lookup_replicate_2 by exact Hj.
        rewrite lookup_replicate_2 by exact Hi. reflexivity.
      * intros j Hj. unfold Np.zeros. rewrite lookup_replicate_2 by exact Hj. reflexivity.
    + intros t [C O] Ht (HsC & HlO & HC & HO). cbn [fst snd] in *.
      destruct (lookup_lt_is_Some_2 q_star t) as [a Ha]; [lia |].
      destruct (lookup_lt_is_Some_2 q_star (t + 1)) as [b Hb]; [lia |].
      assert (HaN : a < N) by (eapply Hrange; exact Ha).
      assert (HbN : b < N) by (eapply Hrange; exact Hb).
      destruct (shape2_lookup N N C a HsC HaN) as (row & Hrow & Hrl).
      step_lift ltac:(apply get_ok; exact Ha).
      step_lift ltac:(apply get_ok; exact Hb).
      step_lift ltac:(apply get2_ok; apply HC; assumption).
      step_lift ltac:(eapply set2_ok; [exact Hrow | lia]).
      step_lift ltac:(apply get_ok; exact Ha).
      step_lift ltac:(apply get_ok; apply HO; assumption).
      step_lift ltac:(apply set_ok; lia).
      apply returns_mret. cbn [fst snd].
      split; [apply shape2_insert; [exact HsC | rewrite length_insert; exact Hrl] |].
      split; [rewrite length_insert; exact HlO |]. split.
      * intros j i Hj Hi. rewrite (lookup2_set2 C a b _ row) by (assumption || lia).
        rewrite count_pairs_S, Ha, Hb.
        destruct (decide (a = j /\ b = i)) as [[<- <-] | Hne].
        -- rewrite decide_True by auto.
           rewrite Nat.add_1_r, float_count_S. reflexivity.
        -- rewrite decide_False by (intros [[= ?] [= ?]]; tauto).
           rewrite Nat.add_0_r. apply HC; assumption.
      * intros j Hj. rewrite out_degree_S, Ha.
        destruct (decide (a = j)) as [<- | Hne].
        -- rewrite list_lookup_insert_eq by lia. rewrite decide_True by reflexivity.
           rewrite Nat.add_1_r, float_count_S. reflexivity.
        -- rewrite list_lookup_insert_ne by exact Hne.
           rewrite decide_False by congruence.
           rewrite Nat.add_0_r. apply HO; assumption.
  - intros [C O] (HsC & HlO & HC & HO). cbn [fst snd] in *.
    f_equal.
    + symmetry. apply list_tabulate; [destruct HsC; assumption |].
      intros j Hj. eapply row_tabulate; [exact HsC | exact Hj |].
      intros i Hi. apply HC; assumption.
    + symmetry. apply list_tabulate; [exact HlO | exact HO].
Qed.

Section Update.

Variable log : float -> float.

(** One call, given what [viterbi] returns and what the counting loop gives. *)
Lemma update_run w q_star r :
  viterbi w = (Ok q_star, w) ->
  (forall w', count_loop q_star (N_states (self w)) (length (state_likelihoods w)) w' = (r, w')) ->
  viterbi_transition_update log w =
    match r with
    | Ok counts => (Ok tt, updated log w counts)
    | Raise e => (Raise e, w)
    end.
Proof.
  intros Hv Hloop.
  unfold viterbi_transition_update, self_N_states, self_eps, arg_state_likelihoods.
  unfold mbind at 1, M_bind at 1, bindM at 1. unfold read at 1. cbn beta iota.
  unfold mbind at 1, M_bind at 1, bindM at 1. unfold read at 1. cbn beta iota.
  unfold mbind at 1, M_bind at 1, bindM at 1. rewrite Hv.
  unfold mbind at 1, M_bind at 1, bindM at 1. unfold read at 1. cbn beta iota.
  unfold mbind at 1, M_bind at 1, bindM at 1.
  change (for_each _ _ _) with
    (count_loop q_star (N_states (self w)) (length (state_likelihoods w))).
  rewrite Hloop. destruct r as [counts | e]; reflexivity.
Qed.

End Update.

(** ** The updated matrix *)

Lemma nan_add e : PrimFloat.add nan e = nan.
Proof.
  rewrite <- (SF2Prim_Prim2SF (PrimFloat.add nan e)).
  rewrite FloatAxioms.add_spec. reflexivity.
Qed.

Lemma zero_ratio_nan e : PrimFloat.add (PrimFloat.div 0 0) e = nan.
Proof. replace (PrimFloat.div 0 0) with nan by reflexivity. apply nan_add. Qed.

Lemma transition_ratio_tables e path N n :
  transition_ratio e (count_table path N n) (out_table path N n) =
    map (fun j => map (fun i =>
           PrimFloat.add
             (PrimFloat.div (float_count (count_pairs path n j i))
                (float_count (out_degree path n j))) e)
         (seq 0 N)) (seq 0 N).
Proof.
  unfold transition_ratio, count_table, out_table.
  rewrite zip_with_tabulate. apply map_ext. intros j.
  rewrite map_map. reflexivity.
Qed.

Section UpdateClaims.

Variable log : float -> float.

(** On well-formed input the call decodes a path, returns, and leaves the
    model with the logarithms of the transition ratios of that path. *)
Lemma update_returns (w : world) (T L : nat) :
  model_shape (self w) ->
  1 <= N_states (self w) ->
  1 <= T ->
  emission_shape T L (state_likelihoods w) ->
  labels_in_range L (self w) ->
  exists path,
    viterbi w = (Ok path, w) /\
    length path = T /\
    (forall t j, path !! t = Some j -> j < N_states (self w)) /\
    viterbi_transition_update log w =
      (Ok tt, updated log w (count_table path (N_states (self w)) (T - 1),
                             out_table path (N_states (self w)) (T - 1))).
Proof.
  intros Hm HN1 HT1 HE Hlab.
  destruct (viterbi_returns w T L Hm HN1 HT1 HE Hlab)
    as (path & Hrun & Hlen & _ & _ & Hrange).
  exists path. split; [exact Hrun |]. split; [exact Hlen |]. split; [exact Hrange |].
  assert (HEl : length (state_likelihoods w) = T) by (destruct HE; assumption).
  rewrite (update_run log w path
    (Ok (count_table path (N_states (self w)) (T - 1),
         out_table path (N_states (self w)) (T - 1))) Hrun).
  - reflexivity.
  - intros w'. rewrite HEl. apply count_loop_returns; assumption.
Qed.

(** C3, as the code has it: the path is decoded, every consecutive pair
    [(path[t], path[t+1])] is counted into an N-by-N matrix and every
    [path[t]] with a successor into an out-degree vector, and entry [j][i] of
    the new matrix is the logarithm of
    [counts[j][i] / outDegree[j] + epsilon]: epsilon is added to the
    quotient, not to its numerator. *)
Theorem transition_update_ratio (w : world) (T L : nat) :
  model_shape (self w) ->
  1 <= N_states (self w) ->
  1 <= T ->
  emission_shape T L (state_likelihoods w) ->
  labels_in_range L (self w) ->
  exists path,
    viterbi w = (Ok path, w) /\
    (viterbi_transition_update log w).1 = Ok tt /\
    forall j i, j < N_states (self w) -> i < N_states (self w) ->
      lookup2 (A (self (viterbi_transition_update log w).2)) j i =
        Some (log (PrimFloat.add
          (PrimFloat.div (float_count (count_pairs path (T - 1) j i))
             (float_count (out_degree path (T - 1) j)))
          (eps (self w)))).
Proof.
  intros Hm HN1 HT1 HE Hlab.
  destruct (update_returns w T L Hm HN1 HT1 HE Hlab)
    as (path & Hrun & _ & _ & Hup).
  exists path. split; [exact Hrun |]. rewrite Hup. split; [reflexivity |].
  intros j i Hj Hi. cbn [snd self A updated fst].
  rewrite transition_ratio_tables. unfold lookup2.
  change (map ?f ?l) with (f <$> l).
  rewrite !list_lookup_fmap, lookup_seq_lt by exact Hj. cbn [fmap option_fmap option_map].
  rewrite !list_lookup_fmap, lookup_seq_lt by exact Hi. reflexivity.
Qed.

(** C4, as the code has it: for a state [j] that the decoded path never
    leaves (out-degree zero), every entry of row [j] handed to [np.log] is
    [0/0 + epsilon], which is NaN in IEEE arithmetic and not epsilon; row [j]
    of the updated matrix holds [log] of NaN in every column. *)
Theorem transition_update_zero_out_degree (w : world) (T L : nat) :
  model_shape (self w) ->
  1 <= N_states (self w) ->
  1 <= T ->
  emission_shape T L (state_likelihoods w) ->
  labels_in_range L (self w) ->
  exists path,
    viterbi w = (Ok path, w) /\
    forall j, j < N_states (self w) -> out_degree path (T - 1) j = 0 ->
      transition_ratio (eps (self w))
          (count_table path (N_states (self w)) (T - 1))
          (out_table path (N_states (self w)) (T - 1)) !! j =
        Some (replicate (N_states (self w)) nan) /\
      A (self (viterbi_transition_update log w).2) !! j =
        Some (replicate (N_states (self w)) (log nan)).
Proof.
  intros Hm HN1 HT1 HE Hlab.
  destruct (update_returns w T L Hm HN1 HT1 HE Hlab)
    as (path & Hrun & _ & _ & Hup).
  exists path. split; [exact Hrun |]. rewrite Hup.
  intros j Hj Hout. cbn [snd self A updated fst].
  rewrite transition_ratio_tables.
  assert (Hrow : map (fun i =>
      PrimFloat.add
        (PrimFloat.div (float_count (count_pairs path (T - 1) j i))
           (float_count (out_degree path (T - 1) j))) (eps (self w)))
      (seq 0 (N_states (self w))) = replicate (N_states (self w)) nan).
  { apply list_eq. intros i.
    destruct (decide (i < N_states (self w))) as [Hi | Hi].
    - rewrite lookup_tabulate, lookup_replicate_2 by exact Hi. f_equal.
      pose proof (count_pairs_le_out_degree path (T - 1) j i) as Hle.
      rewrite Hout in *. assert (count_pairs path (T - 1) j i = 0) as -> by lia.
      apply zero_ratio_nan.
    - rewrite !lookup_ge_None_2; [reflexivity | |].
      + rewrite length_replicate. lia.
      + rewrite length_map, length_seq. lia. }
  split.
  - rewrite lookup_tabulate by exact Hj. f_equal. exact Hrow.
  - change (map (map log) ?l) with (map log <$> l).
    rewrite list_lookup_fmap, lookup_tabulate by exact Hj.
    cbn [fmap option_fmap option_map]. f_equal. rewrite Hrow.
    change (map log ?l) with (log <$> l). apply fmap_replicate.
Qed.

(** C9: if the path decoded after one re-estimation is the path decoded
    before it, a second re-estimation on the same utterance returns and
    leaves the transition matrix, and the whole model, as the first one left
    it. *)
Theorem transition_update_stable_path (w : world) (path : list nat) :
  viterbi w = (Ok path, w) ->
  (viterbi_transition_update log w).1 = Ok tt ->
  viterbi (viterbi_transition_update log w).2 =
    (Ok path, (viterbi_transition_update log w).2) ->
  viterbi_transition_update log (viterbi_transition_update log w).2 =
    (Ok tt, (viterbi_transition_update log w).2) /\
  A (self (viterbi_transition_update log (viterbi_transition_update log w).2).2) =
    A (self (viterbi_transition_update log w).2).
Proof.
  intros Hv Hok Hv'.
  destruct (count_loop_pure path (N_states (self w)) (length (state_likelihoods w)))
    as [r Hr].
  pose proof (update_run log w path r Hv Hr) as H1.
  destruct r as [counts | e]; [| rewrite H1 in Hok; discriminate Hok].
  rewrite H1 in *. cbn [snd] in *.
  assert (H2 : viterbi_transition_update log (updated log w counts) =
               (Ok tt, updated log w counts)).
  { rewrite (update_run log (updated log w counts) path (Ok counts) Hv').
    - reflexivity.
    - exact Hr. }
  rewrite H2. split; reflexivity.
Qed.

End UpdateClaims.

(** ** Construction and restriction *)

Section Construction.

Variable log : float -> float.

(** C6, as the code has it: [__init__] checks no shape.  Whatever the
    lengths of the initial distribution and of the rows of the transition
    matrix, it returns a model that keeps the labels, counts them into
    [N_states], and holds [log(x + eps)] for every entry [x] of the two
    arrays, in the shapes they came in. *)
Theorem init_logs_without_shape_check (state_labels : list Z)
    (initial_state_distribution : list float)
    (transition_matrix : list (list float)) (e : float) :
  exists m,
    __init__ log state_labels initial_state_distribution transition_matrix e = Ok m /\
    eps m = e /\
    labels m = state_labels /\
    N_states m = length state_labels /\
    length (pi m) = length initial_state_distribution /\
    (forall i x, initial_state_distribution !! i = Some x ->
       pi m !! i = Some (log (PrimFloat.add x e))) /\
    length (A m) = length transition_matrix /\
    (forall j i x, lookup2 transition_matrix j i = Some x ->
       lookup2 (A m) j i = Some (log (PrimFloat.add x e))).
Proof.
  eexists. split; [reflexivity |]. cbn [eps labels N_states pi A].
  repeat split.
  - apply length_map.
  - intros i x Hx. change (map ?f ?l) with (f <$> l).
    rewrite list_lookup_fmap, Hx. reflexivity.
  - apply length_map.
  - intros j i x Hx. apply lookup2_Some in Hx as (row & Hrow & Hx).
    apply lookup2_Some. exists (map (log_floor log e) row). split.
    + change (map ?f ?l) with (f <$> l). rewrite list_lookup_fmap, Hrow. reflexivity.
    + change (map ?f ?l) with (f <$> l). rewrite list_lookup_fmap, Hx. reflexivity.
Qed.

End Construction.

(** C7, as the code has it.  When some label is out of range for the [L]
    columns, that is below [-L] or at least [L], [forward] and [viterbi]
    raise (Python's [IndexError]) on every emission sequence, and with at
    least one frame it is the restriction step that raises, at its first
    frame.  With every label in range the step returns a fresh [T]-by-[N]
    matrix whose entry [t][j] is [emission[t][stateLabels[j]]]; a label in
    [-L .. -1] is in range and counts from the last column.  Either way the
    caller's objects are untouched. *)
Theorem restriction_gathers_or_raises (logsumexp : list float -> float)
    (w : world) (T L : nat) :
  emission_shape T L (state_likelihoods w) ->
  (~ labels_in_range L (self w) ->
     (1 <= T -> state_likelihoods_copy w = (Raise IndexError, w)) /\
     forward logsumexp w = (Raise IndexError, w) /\
     viterbi w = (Raise IndexError, w)) /\
  (N_states (self w) = length (labels (self w)) -> labels_in_range L (self w) ->
     exists copy,
       state_likelihoods_copy w = (Ok copy, w) /\
       shape2 T (N_states (self w)) copy /\
       forall t j, t < T -> j < N_states (self w) ->
         lookup2 copy t j = Some (stateEmission (self w) (state_likelihoods w) t j)).
Proof.
  intros HE. split.
  - intros Hno. destruct HE as [Hlen Hall].
    destruct (state_likelihoods w) as [| frame E'] eqn:Hw.
    + split; [cbn in Hlen; lia |].
      destruct w as [m E]. cbn [state_likelihoods] in Hw. subst E.
      split; reflexivity.
    + assert (Hcopy : state_likelihoods_copy w = (Raise IndexError, w)).
      { apply (copy_raises w frame E' Hw).
        apply Forall_cons_1 in Hall as [-> _]. exact Hno. }
      split; [intros _; exact Hcopy |].
      split.
      * unfold forward, mbind, M_bind, bindM. rewrite Hcopy. reflexivity.
      * unfold viterbi, mbind, M_bind, bindM. rewrite Hcopy. reflexivity.
  - intros HN Hlab.
    destruct (copy_returns w T L HN HE Hlab) as (copy & Hrun & <-).
    exists (restricted (self w) (state_likelihoods w)).
    split; [exact Hrun |]. split.
    + rewrite HN. eapply restricted_shape. exact HE.
    + intros t j Ht Hj. apply restricted_lookup; [destruct HE as [-> _]; exact Ht | lia].
Qed.

(** ** Concrete runs *)

Ltac shape_facts :=
  repeat match goal with
  | |- _ /\ _ => split
  | |- Forall _ _ => constructor
  | |- label_in_range _ _ => unfold label_in_range; cbn; lia
  | |- _ <= _ => cbn; lia
  | |- _ = _ => reflexivity
  end.

Lemma word_run_shape :
  model_shape (self word_run) /\
  1 <= N_states (self word_run) /\
  1 <= 10 /\
  emission_shape 10 3 (state_likelihoods word_run) /\
  labels_in_range 3 (self word_run).
Proof. unfold model_shape, emission_shape, shape2, labels_in_range. cbn. shape_facts. Defined.

Lemma staying_run_shape :
  model_shape (self staying_run) /\
  1 <= N_states (self staying_run) /\
  1 <= 3 /\
  emission_shape 3 3 (state_likelihoods staying_run) /\
  labels_in_range 3 (self staying_run).
Proof. unfold model_shape, emission_shape, shape2, labels_in_range. cbn. shape_facts. Defined.

Example word_run_path :
  viterbi word_run = (Ok [0; 0; 0; 1; 1; 1; 1; 2; 2; 2], word_run).
Proof. vm_compute. reflexivity. Qed.

Example staying_run_path : viterbi staying_run = (Ok [0; 0; 0], staying_run).
Proof. vm_compute. reflexivity. Qed.

Example passing_run_path : viterbi passing_run = (Ok [0; 0; 1; 1], passing_run).
Proof. vm_compute. reflexivity. Qed.

(** The score of the ten frames is the entry of the last state, which is
    not the sum over the states of the last frame; and it is above the score
    of the frames in the reverse order. *)
Example word_run_score_is_not_marginal :
  (forward Sample.logsumexp word_run).1 <>
    Ok (Sample.logsumexp
          (map (alpha_rec Sample.logsumexp word_model (state_likelihoods word_run) 9)
             (seq 0 4))).
Proof.
  set (below := fun r : result float =>
                  match r with
                  | Ok x => PrimFloat.ltb x (-13)%float
                  | Raise _ => false
                  end).
  assert (H1 : below (forward Sample.logsumexp word_run).1 = true)
    by (vm_compute; reflexivity).
  assert (H2 : below (Ok (Sample.logsumexp
            (map (alpha_rec Sample.logsumexp word_model (state_likelihoods word_run) 9)
               (seq 0 4)))) = false)
    by (vm_compute; reflexivity).
  intros H. rewrite H in H1. congruence.
Qed.

Example word_run_beats_reverse_order :
  match (forward Sample.logsumexp word_run).1,
        (forward Sample.logsumexp
           {| self := word_model;
              state_likelihoods := favouring 3 [2; 2; 2; 1; 1; 1; 1; 0; 0; 0] |}).1
  with
  | Ok good, Ok bad => PrimFloat.ltb bad good = true
  | _, _ => False
  end.
Proof. vm_compute. reflexivity. Qed.

(** C1 at the word model and its ten frames. *)
Lemma forward_final_state_score_witness :
  forward Sample.logsumexp word_run =
    (Ok (alpha_rec Sample.logsumexp (self word_run) (state_likelihoods word_run)
           (10 - 1) (N_states (self word_run) - 1)), word_run).
Proof.
  destruct word_run_shape as (H1 & H2 & H3 & H4 & H5).
  exact (forward_final_state_score Sample.logsumexp word_run 10 3 H1 H2 H3 H4 H5).
Defined.

(** C2 at the word model and its ten frames. *)
Lemma viterbi_max_sum_path_witness :
  exists path,
    viterbi word_run = (Ok path, word_run) /\
    max_sum_decoding (self word_run) (state_likelihoods word_run) 10
      (delta_rec (self word_run) (state_likelihoods word_run))
      (psi_rec (self word_run) (state_likelihoods word_run)) path.
Proof.
  destruct word_run_shape as (H1 & H2 & H3 & H4 & H5).
  exact (viterbi_max_sum_path word_run 10 3 H1 H2 H3 H4 H5).
Defined.

(** C3 (as amended) at the two-state model staying in state 0. *)
Lemma transition_update_ratio_witness :
  exists path,
    viterbi staying_run = (Ok path, staying_run) /\
    (viterbi_transition_update Sample.log staying_run).1 = Ok tt /\
    forall j i, j < N_states (self staying_run) -> i < N_states (self staying_run) ->
      lookup2 (A (self (viterbi_transition_update Sample.log staying_run).2)) j i =
        Some (Sample.log (PrimFloat.add
          (PrimFloat.div (float_count (count_pairs path (3 - 1) j i))
             (float_count (out_degree path (3 - 1) j)))
          (eps (self staying_run)))).
Proof.
  destruct staying_run_shape as (H1 & H2 & H3 & H4 & H5).
  exact (transition_update_ratio Sample.log staying_run 3 3 H1 H2 H3 H4 H5).
Defined.

(** C3 as the specification words it, with epsilon added to the numerator
    of the ratio, fails: staying in state 0 for three frames gives
    [counts[0][1] = 0] and [outDegree[0] = 2], and the code stores
    [log(0/2 + eps)], not [log((0 + eps)/2)]. *)
Lemma transition_update_numerator_counterexample :
  ~ (forall (log : float -> float) (w : world) (T L : nat),
       model_shape (self w) -> 1 <= N_states (self w) -> 1 <= T ->
       emission_shape T L (state_likelihoods w) -> labels_in_range L (self w) ->
       exists path,
         viterbi w = (Ok path, w) /\
         forall j i, j < N_states (self w) -> i < N_states (self w) ->
           lookup2 (A (self (viterbi_transition_update log w).2)) j i =
             Some (log (PrimFloat.div
               (PrimFloat.add (float_count (count_pairs path (T - 1) j i)) (eps (self w)))
               (float_count (out_degree path (T - 1) j))))).
Proof.
  intros Hclaim.
  destruct staying_run_shape as (H1 & H2 & H3 & H4 & H5).
  destruct (Hclaim Sample.log staying_run 3 3 H1 H2 H3 H4 H5) as (path & Hrun & Hall).
  rewrite staying_run_path in Hrun. injection Hrun as <-.
  specialize (Hall 0 1 ltac:(cbn; lia) ltac:(cbn; lia)).
  vm_compute in Hall.
  apply (f_equal (fun o => match o with
                           | Some x => PrimFloat.ltb x (-461)%float
                           | None => false
                           end)) in Hall.
  vm_compute in Hall. discriminate Hall.
Qed.

(** C4 (as amended) at the two-state model staying in state 0: state 1 has
    out-degree zero and its row is NaN. *)
Lemma transition_update_zero_out_degree_witness :
  transition_ratio (eps (self staying_run))
      (count_table [0; 0; 0] 2 2) (out_table [0; 0; 0] 2 2) !! 1 =
    Some [nan; nan] /\
  A (self (viterbi_transition_update Sample.log staying_run).2) !! 1 =
    Some [Sample.log nan; Sample.log nan].
Proof.
  destruct staying_run_shape as (H1 & H2 & H3 & H4 & H5).
  destruct (transition_update_zero_out_degree Sample.log staying_run 3 3 H1 H2 H3 H4 H5)
    as (path & Hrun & Hall).
  rewrite staying_run_path in Hrun. injection Hrun as <-.
  exact (Hall 1 ltac:(cbn; lia) eq_refl).
Defined.

(** C4 as the specification words it fails at the same input: row 1 of the
    updated matrix is not the row of [log(eps)]. *)
Lemma transition_update_epsilon_row_counterexample :
  ~ (forall (log : float -> float) (w : world) (T L : nat),
       model_shape (self w) -> 1 <= N_states (self w) -> 1 <= T ->
       emission_shape T L (state_likelihoods w) -> labels_in_range L (self w) ->
       exists path,
         viterbi w = (Ok path, w) /\
         forall j, j < N_states (self w) -> out_degree path (T - 1) j = 0 ->
           transition_ratio (eps (self w))
               (count_table path (N_states (self w)) (T - 1))
               (out_table path (N_states (self w)) (T - 1)) !! j =
             Some (replicate (N_states (self w)) (eps (self w))) /\
           A (self (viterbi_transition_update log w).2) !! j =
             Some (replicate (N_states (self w)) (log (eps (self w))))).
Proof.
  intros Hclaim.
  destruct staying_run_shape as (H1 & H2 & H3 & H4 & H5).
  destruct (Hclaim Sample.log staying_run 3 3 H1 H2 H3 H4 H5) as (path & Hrun & Hall).
  rewrite staying_run_path in Hrun. injection Hrun as <-.
  destruct (Hall 1 ltac:(cbn; lia) eq_refl) as [Hrow _].
  vm_compute in Hrow.
  apply (f_equal (fun o => match o with
                           | Some (x :: _) => PrimFloat.is_nan x
                           | _ => false
                           end)) in Hrow.
  vm_compute in Hrow. discriminate Hrow.
Qed.

(** C9 at the two-state model passing from state 0 to state 1: the path is
    the same after the first re-estimation. *)
Lemma transition_update_stable_path_witness :
  viterbi_transition_update Sample.log
      (viterbi_transition_update Sample.log passing_run).2 =
    (Ok tt, (viterbi_transition_update Sample.log passing_run).2) /\
  A (self (viterbi_transition_update Sample.log
             (viterbi_transition_update Sample.log passing_run).2).2) =
    A (self (viterbi_transition_update Sample.log passing_run).2).
Proof.
  apply (transition_update_stable_path Sample.log passing_run [0; 0; 1; 1]).
  - exact passing_run_path.
  - vm_compute. reflexivity.
  - vm_compute. reflexivity.
Defined.

(** C6 as the specification words it fails: an initial distribution of two
    entries for a single label is accepted. *)
Lemma init_shape_mismatch_counterexample :
  ~ (forall (log : float -> float) (state_labels : list Z)
       (initial_state_distribution : list float)
       (transition_matrix : list (list float)) (e : float),
       length initial_state_distribution <> length state_labels \/
       ~ shape2 (length state_labels) (length state_labels) transition_matrix ->
       exists err,
         __init__ log state_labels initial_state_distribution transition_matrix e =
           Raise err).
Proof.
  intros Hclaim.
  destruct (Hclaim Sample.log [0%Z] [0.5; 0.5]%float [[1%float]] default_eps)
    as [err Herr].
  - left. cbn. lia.
  - discriminate Herr.
Qed.

Lemma out_of_range_run_shape :
  emission_shape 1 3 (state_likelihoods out_of_range_run) /\
  ~ labels_in_range 3 (self out_of_range_run).
Proof.
  split.
  - unfold emission_shape, shape2. cbn. shape_facts.
  - unfold labels_in_range. cbn [self out_of_range_run].
    replace (labels (one_state_model 3)) with [3%Z] by reflexivity.
    intros Hin. apply Forall_cons_1 in Hin as [Hin _].
    unfold label_in_range in Hin. lia.
Defined.

Lemma negative_label_run_shape :
  emission_shape 1 3 (state_likelihoods negative_label_run) /\
  N_states (self negative_label_run) = length (labels (self negative_label_run)) /\
  labels_in_range 3 (self negative_label_run).
Proof.
  split; [| split].
  - unfold emission_shape, shape2. cbn. shape_facts.
  - reflexivity.
  - unfold labels_in_range. cbn [self negative_label_run].
    replace (labels (one_state_model (-1))) with [(-1)%Z] by reflexivity.
    constructor; [unfold label_in_range; cbn; lia | constructor].
Defined.

(** C7 (as amended) at three runs: the label 3 over three columns, where
    the step and both methods raise; the word model on its ten frames; and
    the label -1 over three columns, which is gathered from the last
    column. *)
Lemma restriction_gathers_or_raises_witness :
  (state_likelihoods_copy out_of_range_run = (Raise IndexError, out_of_range_run) /\
   forward Sample.logsumexp out_of_range_run = (Raise IndexError, out_of_range_run) /\
   viterbi out_of_range_run = (Raise IndexError, out_of_range_run)) /\
  (exists copy,
     state_likelihoods_copy word_run = (Ok copy, word_run) /\
     shape2 10 (N_states (self word_run)) copy /\
     forall t j, t < 10 -> j < N_states (self word_run) ->
       lookup2 copy t j =
         Some (stateEmission (self word_run) (state_likelihoods word_run) t j)) /\
  (exists copy,
     state_likelihoods_copy negative_label_run = (Ok copy, negative_label_run) /\
     shape2 1 (N_states (self negative_label_run)) copy /\
     forall t j, t < 1 -> j < N_states (self negative_label_run) ->
       lookup2 copy t j =
         Some (stateEmission (self negative_label_run)
                 (state_likelihoods negative_label_run) t j)).
Proof.
  split; [| split].
  - destruct out_of_range_run_shape as [HE Hno].
    destruct (proj1 (restriction_gathers_or_raises Sample.logsumexp
                       out_of_range_run 1 3 HE) Hno) as (Hstep & Hf & Hv).
    split; [apply Hstep; lia | split; assumption].
  - destruct word_run_shape as (_ & _ & _ & HE & Hlab).
    exact (proj2 (restriction_gathers_or_raises Sample.logsumexp word_run 10 3 HE)
             eq_refl Hlab).
  - destruct negative_label_run_shape as (HE & HN & Hlab).
    exact (proj2 (restriction_gathers_or_raises Sample.logsumexp
                    negative_label_run 1 3 HE) HN Hlab).
Defined.

(** Without frames the step looks at no label: it returns the empty matrix,
    and the methods fail at the read of frame 0 that follows. *)
Example restriction_without_frames (m : MyHMM) :
  let w := {| self := m; state_likelihoods := [] |} in
  state_likelihoods_copy w = (Ok [], w).
Proof. reflexivity. Qed.

(** The label -1 on one frame over three classes: the step gathers the last
    column and both methods return. *)
Example negative_label_run_returns :
  state_likelihoods_copy negative_label_run =
    (Ok [[(-0.125)%float]], negative_label_run) /\
  (exists score, forward Sample.logsumexp negative_label_run =
                   (Ok score, negative_label_run)) /\
  viterbi negative_label_run = (Ok [0], negative_label_run).
Proof.
  split; [vm_compute; reflexivity |].
  split; [eexists; vm_compute; reflexivity | vm_compute; reflexivity].
Qed.

(** C7 as the specification words it fails at a negative label: -1 is not
    an index into an inventory of three classes, yet on one frame neither
    the restriction step nor [forward] nor [viterbi] raises. *)
Lemma restriction_negative_label_counterexample :
  ~ (forall (logsumexp : list float -> float) (w : world) (T L : nat),
       emission_shape T L (state_likelihoods w) ->
       ~ Forall (inventory_index L) (labels (self w)) ->
       exists err,
         (state_likelihoods_copy w).1 = Raise err \/
         (forward logsumexp w).1 = Raise err \/
         (viterbi w).1 = Raise err).
Proof.
  intros Hclaim.
  destruct (Hclaim Sample.logsumexp negative_label_run 1 3) as [err Herr].
  - unfold emission_shape, shape2. cbn. shape_facts.
  - cbn [self negative_label_run].
    replace (labels (one_state_model (-1))) with [(-1)%Z] by reflexivity.
    intros Hin. apply Forall_cons_1 in Hin as [Hin _].
    unfold inventory_index in Hin. lia.
  - destruct Herr as [Herr | [Herr | Herr]];
      vm_compute in Herr; discriminate Herr.
Qed.

(** * Further properties of the methods *)

(** ** Running a computation step by step *)

Section Running.

Context {X Y : Type}.

Lemma bind_run (c : M X) (k : X -> M Y) w x :
  c w = (Ok x, w) -> (x ← c; k x) w = k x w.
Proof. intros Hc. unfold mbind, M_bind, bindM. rewrite Hc. reflexivity. Qed.

Lemma bind_raise (c : M X) (k : X -> M Y) w e w' :
  c w = (Raise e, w') -> (x ← c; k x) w = (Raise e, w').
Proof. intros Hc. unfold mbind, M_bind, bindM. rewrite Hc. reflexivity. Qed.

Lemma bind_read (f : world -> X) (k : X -> M Y) w :
  (x ← read f; k x) w = k (f w) w.
Proof. reflexivity. Qed.

Lemma bind_lift (r : result X) (k : X -> M Y) w x :
  r = Ok x -> (x ← lift r; k x) w = k x w.
Proof. intros ->. reflexivity. Qed.

Lemma bind_lift_raise (r : result X) (k : X -> M Y) w e :
  r = Raise e -> (x ← lift r; k x) w = (Raise e, w).
Proof. intros ->. reflexivity. Qed.

End Running.

(** ** A model whose initial vector has the wrong length *)

(** [self.pi + state_likelihoods[0]] stored into a row of [N] cells, for
    [K] entries in [self.pi]: numpy refuses unless [K = N] or [K = 1]. *)
Lemma first_row_refused (p e0 : list float) (a : list (list float)) N :
  length e0 = N -> a !! 0 = Some (Np.zeros N) ->
  length p <> N -> length p <> 1 ->
  rbind (Np.add p e0) (Np.set_row a 0) = Raise ValueError.
Proof.
  intros He0 Ha HpN Hp1. unfold Np.add.
  rewrite decide_False by congruence.
  destruct p as [| x [| y p]]; cbn in Hp1; try lia.
  - destruct e0 as [| z [| z' e0]]; try reflexivity.
    cbn. unfold Np.set_row, Np.broadcast_to. rewrite Ha.
    unfold Np.zeros. rewrite length_replicate.
    cbn in He0. subst N. reflexivity.
  - destruct e0 as [| z [| z' e0]]; try reflexivity.
    cbn [rbind map]. unfold Np.set_row, Np.broadcast_to. rewrite Ha.
    unfold Np.zeros. rewrite length_replicate.
    cbn in He0. subst N. cbn. reflexivity.
Qed.

Section WrongLength.

Variable logsumexp : list float -> float.

(** X1: [__init__] accepts an initial distribution of any length, and the
    mismatch shows at the first use: with [K] entries in [self.pi] for
    [N] states, [K] neither [N] nor 1, [forward] and [viterbi] raise
    [ValueError] on every utterance that has a frame, and write nothing. *)
Theorem initial_length_mismatch_raises (w : world) (T L : nat) :
  1 <= T ->
  emission_shape T L (state_likelihoods w) ->
  labels_in_range L (self w) ->
  N_states (self w) = length (labels (self w)) ->
  length (pi (self w)) <> N_states (self w) ->
  length (pi (self w)) <> 1 ->
  forward logsumexp w = (Raise ValueError, w) /\
  viterbi w = (Raise ValueError, w).
Proof.
  intros HT HE Hlab HN HpN Hp1.
  destruct (copy_returns w T L HN HE Hlab) as (R & Hrun & <-).
  set (R := restricted (self w) (state_likelihoods w)) in *.
  pose proof (restricted_shape (self w) _ T L HE) as HR. rewrite <- HN in HR. fold R in HR.
  destruct (shape2_lookup T (N_states (self w)) R 0 HR) as (e0 & He0 & Hlen); [lia |].
  assert (HRl : Np.shape0 R = T) by (destruct HR; assumption).
  assert (Hz : Np.zeros2 T (N_states (self w)) !! 0 = Some (Np.zeros (N_states (self w))))
    by (apply lookup_replicate_2; lia).
  pose proof (first_row_refused (pi (self w)) e0 _ _ Hlen Hz HpN Hp1) as Href.
  split.
  - unfold forward, self_N_states, self_pi.
    rewrite (bind_run _ _ _ _ Hrun), bind_read, bind_read.
    rewrite (bind_lift _ _ _ _ (get_ok _ _ _ He0)). rewrite HRl.
    destruct (Np.add (pi (self w)) e0) as [v | err] eqn:Hadd; cbn [rbind] in Href.
    + rewrite (bind_lift _ _ _ _ eq_refl).
      apply bind_lift_raise. exact Href.
    + injection Href as ->. apply bind_lift_raise. reflexivity.
  - unfold viterbi, self_N_states, self_pi.
    rewrite (bind_run _ _ _ _ Hrun), bind_read, bind_read.
    rewrite (bind_lift _ _ _ _ (get_ok _ _ _ He0)). rewrite HRl.
    destruct (Np.add (pi (self w)) e0) as [v | err] eqn:Hadd; cbn [rbind] in Href.
    + rewrite (bind_lift _ _ _ _ eq_refl).
      apply bind_lift_raise. exact Href.
    + injection Href as ->. apply bind_lift_raise. reflexivity.
Qed.

End WrongLength.

(** ** Re-estimation: all or nothing, one frame, and what follows a NaN row *)

Lemma is_nan_eq x : PrimFloat.is_nan x = true -> x = nan.
Proof.
  intros H. apply is_nan_true in H.
  rewrite <- (SF2Prim_Prim2SF x), H. reflexivity.
Qed.

Lemma add_nan x : PrimFloat.add x nan = nan.
Proof.
  rewrite <- (SF2Prim_Prim2SF (PrimFloat.add x nan)).
  rewrite FloatAxioms.add_spec.
  replace (Prim2SF nan) with SpecFloat.S754_nan by reflexivity.
  unfold SF64add, SpecFloat.SFadd. destruct (Prim2SF x); reflexivity.
Qed.

(** A row of counts over a zero out-degree is a row of NaN. *)
Lemma zero_out_degree_row path N n e j :
  out_degree path n j = 0 ->
  map (fun i =>
         PrimFloat.add
           (PrimFloat.div (float_count (count_pairs path n j i))
              (float_count (out_degree path n j))) e)
      (seq 0 N) = replicate N nan.
Proof.
  intros Hout. apply list_eq. intros i.
  destruct (decide (i < N)) as [Hi | Hi].
  - rewrite lookup_tabulate, lookup_replicate_2 by exact Hi. f_equal.
    pose proof (count_pairs_le_out_degree path n j i) as Hle.
    rewrite Hout in *. assert (count_pairs path n j i = 0) as -> by lia.
    apply zero_ratio_nan.
  - rewrite !lookup_ge_None_2; [reflexivity | |].
    + rewrite length_replicate. lia.
    + rewrite length_map, length_seq. lia.
Qed.

Section UpdateEdges.

Variable log : float -> float.

(** X2: [viterbi_transition_update] is all or nothing.  When it raises,
    the model is exactly what it was, [A] included: the assignment to
    [self.A] is its last statement.  When it returns, [viterbi] has returned
    a path on the same model and only [A] differs, holding the logarithms of
    the ratios of some counts. *)
Theorem viterbi_transition_update_all_or_nothing (w : world) :
  match (viterbi_transition_update log w).1 with
  | Raise _ => (viterbi_transition_update log w).2 = w
  | Ok _ =>
      exists path counts,
        viterbi w = (Ok path, w) /\
        (viterbi_transition_update log w).2 = updated log w counts
  end.
Proof.
  pose proof (viterbi_readonly w) as Hro.
  destruct (viterbi w) as [[path | e] w'] eqn:Hv; cbn in Hro; subst w'.
  - destruct (count_loop_pure path (N_states (self w)) (length (state_likelihoods w)))
      as [r Hr].
    rewrite (update_run log w path r Hv Hr).
    destruct r as [counts | e]; cbn [fst snd]; [| reflexivity].
    exists path, counts. split; reflexivity.
  - assert (Hup : viterbi_transition_update log w = (Raise e, w)).
    { unfold viterbi_transition_update, self_N_states.
      rewrite bind_read, bind_read. apply bind_raise. exact Hv. }
    rewrite Hup. reflexivity.
Qed.

(** X3: re-estimating on an utterance of a single frame counts no
    transition: every state has out-degree zero, and the call returns with
    [log] of NaN in every entry of the transition matrix. *)
Theorem single_frame_update_erases_transitions (w : world) (L : nat) :
  model_shape (self w) ->
  1 <= N_states (self w) ->
  emission_shape 1 L (state_likelihoods w) ->
  labels_in_range L (self w) ->
  (viterbi_transition_update log w).1 = Ok tt /\
  A (self (viterbi_transition_update log w).2) =
    replicate (N_states (self w)) (replicate (N_states (self w)) (log nan)).
Proof.
  intros Hm HN HE Hlab.
  destruct (update_returns log w 1 L Hm HN ltac:(lia) HE Hlab)
    as (path & _ & _ & _ & Hup).
  rewrite Hup. split; [reflexivity |].
  cbn [snd self A updated fst]. rewrite transition_ratio_tables.
  change (1 - 1) with 0.
  apply list_eq. intros j.
  destruct (decide (j < N_states (self w))) as [Hj | Hj].
  - change (map (map log) ?l) with (map log <$> l).
    rewrite list_lookup_fmap, lookup_tabulate, lookup_replicate_2 by exact Hj.
    cbn [fmap option_fmap option_map]. f_equal.
    rewrite (zero_out_degree_row path _ 0 _ j eq_refl).
    change (map log ?l) with (log <$> l). apply fmap_replicate.
  - rewrite !lookup_ge_None_2; [reflexivity | |].
    + rewrite length_replicate. lia.
    + rewrite !length_map, length_seq. lia.
Qed.

End UpdateEdges.

(** ** Decoding with a NaN row in the transition matrix *)

Lemma max_of_nan xs : nan ∈ xs -> unwrap 0%float (Np.max xs) = nan.
Proof.
  intros Hin.
  assert (Hne : xs <> []) by (intros ->; inversion Hin).
  destruct (max_nonempty xs Hne) as [v Hv]. rewrite Hv. cbn.
  destruct (max_is_max xs v Hv) as [_ Hup].
  specialize (Hup nan Hin). unfold np_le in Hup.
  destruct (PrimFloat.is_nan v) eqn:Hn; [apply is_nan_eq, Hn |].
  cbn in Hup. destruct (leb_not_nan _ _ Hup) as [Hnan _]. discriminate Hnan.
Qed.

Lemma candidates_lookup m prev i j :
  j < N_states m ->
  candidates m prev i !! j = Some (PrimFloat.add (prev j) (transitionLogProb m j i)).
Proof.
  intros Hj. unfold candidates.
  exact (lookup_tabulate (N_states m)
           (fun j => PrimFloat.add (prev j) (transitionLogProb m j i)) j Hj).
Qed.

Lemma map_seq_head {X} (f : nat -> X) n :
  1 <= n -> map f (seq 0 n) = f 0 :: map f (seq 1 (n - 1)).
Proof.
  intros Hn. destruct n as [| n]; [lia |].
  replace (S n - 1) with n by lia. reflexivity.
Qed.

Lemma candidates_head_nan m prev i :
  1 <= N_states m -> prev 0 = nan ->
  exists rest, candidates m prev i = nan :: rest.
Proof.
  intros HN H0. unfold candidates.
  destruct (N_states m) as [| n]; [lia |].
  cbn [seq map]. rewrite H0, nan_add. eauto.
Qed.

Section NanRow.

Variables (m : MyHMM) (E : list (list float)) (j : nat).
Hypothesis Hj : j < N_states m.
Hypothesis Hrow : forall i, i < N_states m ->
  PrimFloat.is_nan (transitionLogProb m j i) = true.

Lemma delta_rec_nan t i : i < N_states m -> delta_rec m E (S t) i = nan.
Proof.
  intros Hi. cbn [delta_rec]. rewrite max_of_nan; [apply nan_add |].
  apply list_elem_of_lookup. exists j.
  rewrite candidates_lookup by exact Hj.
  rewrite (is_nan_eq _ (Hrow i Hi)), add_nan. reflexivity.
Qed.

Lemma psi_rec_zero t i : psi_rec m E (S (S t)) i = 0.
Proof.
  cbn [psi_rec].
  destruct (candidates_head_nan m (delta_rec m E (S t)) i) as [rest ->].
  - lia.
  - apply delta_rec_nan. lia.
  - reflexivity.
Qed.

Lemma last_argmax_zero t :
  unwrap 0 (Np.argmax (map (delta_rec m E (S t)) (seq 0 (N_states m)))) = 0.
Proof.
  rewrite (map_seq_head _ (N_states m)) by lia.
  rewrite delta_rec_nan by lia. reflexivity.
Qed.

End NanRow.

(** X4: once row [j] of the transition matrix is NaN (as a re-estimation
    leaves it for a state of out-degree zero), the scores of every frame
    after the first are NaN and [viterbi] returns, for an utterance of two
    frames or more, a path that is state 0 from frame 1 on, whatever the
    emissions. *)
Theorem nan_row_degenerate_path (w : world) (T L j : nat) :
  model_shape (self w) ->
  2 <= T ->
  emission_shape T L (state_likelihoods w) ->
  labels_in_range L (self w) ->
  j < N_states (self w) ->
  (forall i, i < N_states (self w) ->
     PrimFloat.is_nan (transitionLogProb (self w) j i) = true) ->
  exists path,
    viterbi w = (Ok path, w) /\
    length path = T /\
    forall t, 1 <= t < T -> path !! t = Some 0.
Proof.
  intros Hm HT HE Hlab Hj Hrow.
  destruct (viterbi_returns w T L Hm ltac:(lia) ltac:(lia) HE Hlab)
    as (path & Hrun & Hlen & Hlast & Hback & _).
  exists path. split; [exact Hrun |]. split; [exact Hlen |].
  assert (Hend : path !! (T - 1) = Some 0).
  { rewrite Hlast. f_equal. destruct T as [| [| T']]; try lia.
    replace (S (S T') - 1) with (S T') by lia.
    apply (last_argmax_zero _ _ j Hj Hrow). }
  assert (Hdown : forall d t, t + d = T - 1 -> 1 <= t -> path !! t = Some 0).
  { induction d as [| d IH]; intros t Ht H1.
    - replace t with (T - 1) by lia. exact Hend.
    - destruct (Hback t ltac:(lia)) as (k & Hk & Hprev).
      rewrite (IH (t + 1) ltac:(lia) ltac:(lia)) in Hk. injection Hk as <-.
      rewrite Hprev. f_equal.
      destruct t as [| t']; [lia |].
      replace (S t' + 1) with (S (S t')) by lia.
      apply (psi_rec_zero _ _ j Hj Hrow). }
  intros t Ht. apply (Hdown (T - 1 - t)); lia.
Qed.

(** The model that a re-estimation on the staying frames leaves has a NaN
    row for state 1. *)
Definition staying_run_updated : world :=
  (viterbi_transition_update Sample.log staying_run).2.

Lemma nan_row_degenerate_path_witness :
  exists path,
    viterbi staying_run_updated = (Ok path, staying_run_updated) /\
    length path = 3 /\
    forall t, 1 <= t < 3 -> path !! t = Some 0.
Proof.
  apply (nan_row_degenerate_path staying_run_updated 3 3 1).
  - unfold model_shape. vm_compute. shape_facts.
  - lia.
  - unfold emission_shape, shape2. vm_compute. shape_facts.
  - unfold labels_in_range.
    replace (labels (self staying_run_updated)) with [0%Z; 1%Z]
      by (vm_compute; reflexivity).
    shape_facts.
  - vm_compute. lia.
  - intros i Hi. change (N_states (self staying_run_updated)) with 2 in Hi.
    destruct i as [| [| i]]; [vm_compute; reflexivity | vm_compute; reflexivity | lia].
Defined.

(** ** The counts of a re-estimation add up *)

(** [f 0 + ... + f (n-1)]. *)
Fixpoint sum_upto (f : nat -> nat) (n : nat) : nat :=
  match n with
  | O => 0
  | S n' => sum_upto f n' + f n'
  end.

Lemma sum_upto_ext f g n : (forall i, i < n -> f i = g i) -> sum_upto f n = sum_upto g n.
Proof.
  induction n as [| n IH]; intros H; [reflexivity |].
  cbn. rewrite IH, H by (intros; try apply H; lia). reflexivity.
Qed.

Lemma sum_upto_add f g n : sum_upto (fun i => f i + g i) n = sum_upto f n + sum_upto g n.
Proof.
  induction n as [| n IH]; [reflexivity |]. cbn. rewrite IH. lia.
Qed.

Lemma sum_upto_zero f n : (forall i, i < n -> f i = 0) -> sum_upto f n = 0.
Proof.
  induction n as [| n IH]; intros H; [reflexivity |].
  cbn. rewrite IH, H by (intros; try apply H; lia). reflexivity.
Qed.

(** Exactly one index below [n], [k], satisfies [P]. *)
Lemma sum_upto_indicator (P : nat -> Prop) `{!forall i, Decision (P i)} n k :
  k < n -> (forall i, P i <-> i = k) ->
  sum_upto (fun i => if decide (P i) then 1 else 0) n = 1.
Proof.
  intros Hk HP. induction n as [| n IH]; [lia |].
  cbn [sum_upto]. destruct (decide (k = n)) as [-> | Hne].
  - rewrite decide_True by (apply HP; reflexivity).
    rewrite sum_upto_zero; [reflexivity |].
    intros i Hi. rewrite decide_False; [reflexivity |].
    intros Hi'. apply HP in Hi'. lia.
  - rewrite IH by lia. rewrite decide_False; [reflexivity |].
    intros Hn. apply HP in Hn. lia.
Qed.

Lemma count_pairs_row_sum path N n j :
  (forall t, t <= n -> exists i, path !! t = Some i /\ i < N) ->
  sum_upto (count_pairs path n j) N = out_degree path n j.
Proof.
  induction n as [| n IH]; intros Hpath.
  - apply sum_upto_zero. reflexivity.
  - rewrite out_degree_S, <- IH by (intros; apply Hpath; lia).
    rewrite (sum_upto_ext _ _ N (fun i _ => count_pairs_S path n j i)).
    rewrite sum_upto_add. f_equal.
    destruct (Hpath (n + 1) ltac:(lia)) as (b & Hb & HbN).
    destruct (decide (path !! n = Some j)) as [Hj | Hj].
    + apply (sum_upto_indicator _ N b HbN).
      intros i. rewrite Hb. split; [intros [_ [= ->]]; reflexivity | intros ->; auto].
    + apply sum_upto_zero. intros i _. rewrite decide_False; tauto.
Qed.

Lemma out_degree_sum path N n :
  (forall t, t < n -> exists i, path !! t = Some i /\ i < N) ->
  sum_upto (out_degree path n) N = n.
Proof.
  induction n as [| n IH]; intros Hpath.
  - apply sum_upto_zero. reflexivity.
  - rewrite (sum_upto_ext _ _ N (fun j _ => out_degree_S path n j)).
    rewrite sum_upto_add, IH by (intros; apply Hpath; lia).
    destruct (Hpath n ltac:(lia)) as (a & Ha & HaN).
    rewrite (sum_upto_indicator _ N a HaN); [lia |].
    intros j. rewrite Ha. split; [intros [= ->]; reflexivity | intros ->; reflexivity].
Qed.

Section Totals.

Variable log : float -> float.

(** X5: the counts behind the new transition matrix are consistent.  On
    well-formed input the call returns with [A] computed from the table of
    pair counts and the table of out-degrees of the decoded path; the counts
    of row [j] add up to the out-degree of [j], and the out-degrees add up
    to [T - 1], the number of transitions of the path. *)
Theorem transition_counts_add_up (w : world) (T L : nat) :
  model_shape (self w) ->
  1 <= N_states (self w) ->
  1 <= T ->
  emission_shape T L (state_likelihoods w) ->
  labels_in_range L (self w) ->
  exists path,
    viterbi w = (Ok path, w) /\
    viterbi_transition_update log w =
      (Ok tt, updated log w (count_table path (N_states (self w)) (T - 1),
                             out_table path (N_states (self w)) (T - 1))) /\
    (forall j, j < N_states (self w) ->
       sum_upto (count_pairs path (T - 1) j) (N_states (self w)) =
         out_degree path (T - 1) j) /\
    sum_upto (out_degree path (T - 1)) (N_states (self w)) = T - 1.
Proof.
  intros Hm HN HT HE Hlab.
  destruct (update_returns log w T L Hm HN HT HE Hlab)
    as (path & Hrun & Hlen & Hrange & Hup).
  exists path. split; [exact Hrun |]. split; [exact Hup |].
  assert (Hpath : forall t, t <= T - 1 ->
            exists i, path !! t = Some i /\ i < N_states (self w)).
  { intros t Ht. destruct (lookup_lt_is_Some_2 path t) as [i Hi]; [lia |].
    exists i. split; [exact Hi | eapply Hrange; exact Hi]. }
  split.
  - intros j _. apply count_pairs_row_sum. exact Hpath.
  - apply out_degree_sum. intros t Ht. apply Hpath. lia.
Qed.

End Totals.

From stdpp Require Import strings.

(** * The script around the class *)

(** ** phones2indices *)

(** [l.index(p)]: the first position of [p] in [l], or [ValueError]. *)
Fixpoint index (l : list string) (p : string) : result nat :=
  match l with
  | [] => Raise ValueError
  | x :: l' =>
      if decide (x = p) then Ok 0
      else rbind (index l' p) (fun i => Ok (S i))
  end.

(** [phones2indices]: [[phone_labels.index(p) for p in phones]], for the
    global list [phone_labels] that the script loads. *)
Fixpoint phones2indices (phone_labels phones : list string) : result (list Z) :=
  match phones with
  | [] => Ok []
  | p :: phones' =>
      rbind (index phone_labels p) (fun i =>
      rbind (phones2indices phone_labels phones') (fun ks => Ok (Z.of_nat i :: ks)))
  end.

Lemma index_ok l p i :
  index l p = Ok i ->
  l !! i = Some p /\ forall k, k < i -> l !! k <> Some p.
Proof.
  revert i. induction l as [| x l IH]; intros i; cbn [index]; [discriminate |].
  destruct (decide (x = p)) as [-> | Hne].
  - intros [= <-]. split; [reflexivity | intros k Hk; lia].
  - destruct (index l p) as [i' | e]; cbn [rbind]; [| discriminate].
    intros [= <-]. destruct (IH i' eq_refl) as [Hi Hfirst]. split; [exact Hi |].
    intros [| k] Hk; cbn; [congruence | apply Hfirst; lia].
Qed.

Lemma index_raises l p : p ∉ l <-> index l p = Raise ValueError.
Proof.
  induction l as [| x l IH]; cbn [index].
  - split; [reflexivity | intros _ H; inversion H].
  - destruct (decide (x = p)) as [-> | Hne].
    + split; [intros H; destruct H; apply list_elem_of_here | discriminate].
    + rewrite not_elem_of_cons. destruct (index l p) as [i | e]; cbn [rbind].
      * split; [| discriminate]. intros [_ H]. apply IH in H. discriminate H.
      * split; [intros [_ H]; apply IH in H; exact H |].
        intros [= ->]. split; [congruence | apply IH; reflexivity].
Qed.

Lemma index_elem l p : p ∈ l -> exists i, index l p = Ok i.
Proof.
  intros Hin. destruct (index l p) as [i | e] eqn:Hidx; [eauto |].
  exfalso. assert (He : e = ValueError).
  { clear Hin. revert e Hidx. induction l as [| x l IH]; cbn [index]; intros e.
    - intros [= <-]. reflexivity.
    - destruct (decide (x = p)); [discriminate |].
      destruct (index l p) as [i | e']; cbn [rbind]; [discriminate |].
      intros [= <-]. apply IH. reflexivity. }
  subst e. apply index_raises in Hidx. contradiction.
Qed.

Lemma phones2indices_lookup (phone_labels phones : list string) (ks : list Z) :
  phones2indices phone_labels phones = Ok ks ->
  length ks = length phones /\
  forall n p, phones !! n = Some p ->
    exists i, ks !! n = Some (Z.of_nat i) /\
      phone_labels !! i = Some p /\
      forall k, k < i -> phone_labels !! k <> Some p.
Proof.
  revert ks. induction phones as [| q phones IH]; intros ks; cbn [phones2indices].
  - intros [= <-]. split; [reflexivity | intros n p H; discriminate H].
  - destruct (index phone_labels q) as [i | e] eqn:Hidx; cbn [rbind]; [| discriminate].
    destruct (phones2indices phone_labels phones) as [ks' | e]; cbn [rbind];
      [| discriminate].
    intros [= <-]. destruct (IH ks' eq_refl) as [Hlen Hall]. split.
    + cbn. rewrite Hlen. reflexivity.
    + intros [| n] p Hp; cbn in Hp.
      * injection Hp as <-. exists i. split; [reflexivity |].
        apply index_ok. exact Hidx.
      * apply Hall. exact Hp.
Qed.

(** X6: when [phones2indices] returns, it returns one index per phone, in
    order, and each index is the first position of its phone in
    [phone_labels]: looking the index up gives the phone back. *)
Theorem phones2indices_first_positions (phone_labels phones : list string)
    (ks : list Z) :
  phones2indices phone_labels phones = Ok ks ->
  length ks = length phones /\
  forall n p, phones !! n = Some p ->
    exists i, ks !! n = Some (Z.of_nat i) /\
      phone_labels !! i = Some p /\
      forall k, k < i -> phone_labels !! k <> Some p.
Proof. apply phones2indices_lookup. Qed.

(** X7: [phones2indices] raises exactly when some phone is missing from
    [phone_labels], and then it is [ValueError]. *)
Theorem phones2indices_raises_iff_missing (phone_labels phones : list string) :
  (Forall (fun p => p ∈ phone_labels) phones <->
     exists ks, phones2indices phone_labels phones = Ok ks) /\
  (~ Forall (fun p => p ∈ phone_labels) phones <->
     phones2indices phone_labels phones = Raise ValueError).
Proof.
  induction phones as [| q phones [IHok IHno]]; cbn [phones2indices].
  - split; split; eauto; [intros H; destruct H; constructor | discriminate].
  - destruct (decide (q ∈ phone_labels)) as [Hq | Hq].
    + destruct (index_elem _ _ Hq) as [i Hi]. rewrite Hi. cbn [rbind].
      destruct (phones2indices phone_labels phones) as [ks | e]; cbn [rbind].
      * split; split; eauto.
        -- intros _. constructor; [exact Hq | apply IHok; eauto].
        -- intros Hno. destruct Hno. constructor; [exact Hq | apply IHok; eauto].
        -- discriminate.
      * split; split.
        -- intros Hall. apply Forall_cons_1 in Hall as [_ Hall].
           apply IHok in Hall as [ks Hks]. discriminate Hks.
        -- intros [ks Hks]. discriminate Hks.
        -- intros Hno. f_equal.
           assert (Hno' : ~ Forall (fun p => p ∈ phone_labels) phones).
           { intros Hall. apply Hno. constructor; assumption. }
           apply IHno in Hno'. congruence.
        -- intros [= ->] Hall. apply Forall_cons_1 in Hall as [_ Hall].
           apply IHno in Hall; [exact Hall | reflexivity].
    + pose proof Hq as Hq'. apply index_raises in Hq'. rewrite Hq'. cbn [rbind].
      split; split.
      * intros Hall. apply Forall_cons_1 in Hall as [Hin _]. contradiction.
      * intros [ks Hks]. discriminate Hks.
      * reflexivity.
      * intros _ Hall. apply Forall_cons_1 in Hall as [Hin _]. contradiction.
Qed.

(** ** A model built the way the script builds its six *)

Lemma phones2indices_in_range (phone_labels phones : list string) (ks : list Z) :
  phones2indices phone_labels phones = Ok ks ->
  Forall (label_in_range (length phone_labels)) ks.
Proof.
  intros Hks. destruct (phones2indices_lookup _ _ _ Hks) as [Hlen Hall].
  apply Forall_lookup. intros n k Hk.
  destruct (lookup_lt_is_Some_2 phones n) as [p Hp].
  { rewrite <- Hlen. eapply lookup_lt_Some. exact Hk. }
  destruct (Hall n p Hp) as (i & Hi & Hlab & _).
  rewrite Hk in Hi. injection Hi as ->.
  apply lookup_lt_Some in Hlab. unfold label_in_range. lia.
Qed.

Section ScriptModel.

Variable log : float -> float.

(** X8: a model built as the script builds [fee_HMM] and the others
    (labels from [phones2indices], an initial vector of one entry per phone,
    a square transition matrix of that size) has the shape the methods need,
    and on every utterance of at least one frame over the inventory of
    [phone_labels] [viterbi] returns a path of in-range states and
    [viterbi_transition_update] returns: neither raises. *)
Theorem script_model_decodes (phone_labels phones : list string) (ks : list Z)
    (initial_state_distribution : list float)
    (transition_matrix : list (list float)) (e : float) (m : MyHMM)
    (E : list (list float)) (T : nat) :
  phones2indices phone_labels phones = Ok ks ->
  phones <> [] ->
  length initial_state_distribution = length phones ->
  shape2 (length phones) (length phones) transition_matrix ->
  __init__ log ks initial_state_distribution transition_matrix e = Ok m ->
  1 <= T ->
  emission_shape T (length phone_labels) E ->
  model_shape m /\
  labels_in_range (length phone_labels) m /\
  exists path,
    viterbi {| self := m; state_likelihoods := E |} =
      (Ok path, {| self := m; state_likelihoods := E |}) /\
    length path = T /\
    (forall t j, path !! t = Some j -> j < length phones) /\
    (viterbi_transition_update log {| self := m; state_likelihoods := E |}).1 = Ok tt.
Proof.
  intros Hks Hne Hinit [Hrows Hcols] [= <-] HT HE.
  destruct (phones2indices_lookup _ _ _ Hks) as [Hlen _].
  assert (Hm : model_shape
    {| eps := e; pi := map (log_floor log e) initial_state_distribution;
       A := map (map (log_floor log e)) transition_matrix;
       labels := ks; N_states := length ks |}).
  { unfold model_shape. cbn [N_states labels pi A]. rewrite !length_map.
    repeat split; try congruence.
    apply Forall_forall. intros row Hrow.
    apply list_elem_of_In, in_map_iff in Hrow as (row' & <- & Hin).
    rewrite length_map. rewrite Forall_forall in Hcols.
    rewrite (Hcols row') by (apply list_elem_of_In; exact Hin). congruence. }
  assert (Hlab : labels_in_range (length phone_labels)
    {| eps := e; pi := map (log_floor log e) initial_state_distribution;
       A := map (map (log_floor log e)) transition_matrix;
       labels := ks; N_states := length ks |}).
  { unfold labels_in_range. cbn [labels]. eapply phones2indices_in_range. exact Hks. }
  assert (HN : 1 <= length ks).
  { rewrite Hlen. destruct phones; [congruence | cbn; lia]. }
  split; [exact Hm |]. split; [exact Hlab |].
  destruct (update_returns log {| self := _; state_likelihoods := E |} T
              (length phone_labels) Hm HN HT HE Hlab)
    as (path & Hrun & Hpl & Hrange & Hup).
  exists path. split; [exact Hrun |]. split; [exact Hpl |]. split.
  - intros t j Hj. rewrite <- Hlen. exact (Hrange t j Hj).
  - rewrite Hup. reflexivity.
Qed.

End ScriptModel.

(** ** compute_phone_likelihoods *)

(** What a call into torch gives: a tensor, or [RuntimeError]. *)
Inductive torch_result (X : Type) : Type :=
| Tensor (x : X)
| RuntimeError.

Arguments Tensor {X} x.
Arguments RuntimeError {X}.

(** [l[a:b]] for [0 <= a]. *)
Definition slice {X} (l : list X) (a b : nat) : list X := take (b - a) (drop a l).

(** [torch.transpose(torch.stack(l, dim=1), 0, 1)]: the tensor whose rows
    are the vectors of [l]; [stack] wants at least one vector and one size
    for all. *)
Definition stack_rows (l : list (list float)) : torch_result (list (list float)) :=
  match l with
  | [] => RuntimeError
  | v :: l' =>
      if decide (Forall (fun u => length u = length v) l') then Tensor l
      else RuntimeError
  end.

Section PhoneLikelihoods.

(** [model(inp)[0]], the output of the network for one window of frames,
    and [x - math.log(1. / 48)] on an entry of it. *)
Variable model : list (list float) -> list float.
Variable minus_log_prior : float -> float.

(** The loop of [compute_phone_likelihoods]: one vector appended for every
    [j] of [range(6, logspec.size(0) - 5)]. *)
Definition likelihood_list (logspec : list (list float)) : list (list float) :=
  fold_left (fun likelihood_list j =>
      let inp := slice logspec (j - 5) (j + 6) in
      let output := model inp in
      let output := map minus_log_prior output in
      likelihood_list ++ [output])
    (range 6 (length logspec - 5)) [].

Definition compute_phone_likelihoods (logspec : list (list float))
  : torch_result (list (list float)) :=
  stack_rows (likelihood_list logspec).

Lemma fold_append {X Y} (f : X -> Y) (xs : list X) (acc : list Y) :
  fold_left (fun acc x => acc ++ [f x]) xs acc = acc ++ map f xs.
Proof.
  revert acc. induction xs as [| x xs IH]; intros acc; cbn.
  - rewrite app_nil_r. reflexivity.
  - rewrite IH, <- app_assoc. reflexivity.
Qed.

Lemma likelihood_list_windows logspec :
  likelihood_list logspec =
    map (fun t => map minus_log_prior (model (take 11 (drop (t + 1) logspec))))
      (seq 0 (length logspec - 11)).
Proof.
  unfold likelihood_list.
  rewrite (fold_append (fun j =>
    map minus_log_prior (model (slice logspec (j - 5) (j + 6))))). cbn [app].
  unfold range. replace (length logspec - 5 - 6) with (length logspec - 11) by lia.
  rewrite <- (fmap_add_seq 6 0).
  change (map ?f (?g <$> ?l)) with (map f (map g l)). rewrite map_map.
  apply map_ext. intros t. unfold slice.
  replace (6 + t + 6 - (6 + t - 5)) with 11 by lia.
  replace (6 + t - 5) with (t + 1) by lia. reflexivity.
Qed.

(** X9: for a network that gives [C] scores per window and a spectrogram
    of at least 12 frames, [compute_phone_likelihoods] returns a matrix of
    [frames - 11] rows of [C] entries, and row [t] is computed from the 11
    frames [t+1 .. t+11]. *)
Theorem compute_phone_likelihoods_windows (logspec : list (list float)) (C : nat) :
  (forall inp, length (model inp) = C) ->
  12 <= length logspec ->
  exists likelihoods,
    compute_phone_likelihoods logspec = Tensor likelihoods /\
    shape2 (length logspec - 11) C likelihoods /\
    forall t, t < length logspec - 11 ->
      likelihoods !! t =
        Some (map minus_log_prior (model (take 11 (drop (t + 1) logspec)))).
Proof.
  intros HC Hlen. unfold compute_phone_likelihoods.
  rewrite likelihood_list_windows.
  set (row := fun t => map minus_log_prior (model (take 11 (drop (t + 1) logspec)))).
  assert (Hrow : forall t, length (row t) = C)
    by (intros t; unfold row; rewrite length_map; apply HC).
  assert (Hall : Forall (fun u => length u = C) (map row (seq 0 (length logspec - 11)))).
  { apply Forall_forall. intros u Hu.
    apply list_elem_of_In, in_map_iff in Hu as (t & <- & _). apply Hrow. }
  exists (map row (seq 0 (length logspec - 11))). split; [| split].
  - unfold stack_rows.
    destruct (length logspec - 11) as [| n] eqn:Hn; [lia |].
    cbn [seq map]. rewrite decide_True; [reflexivity |].
    rewrite Hrow. cbn [seq map] in Hall. apply Forall_cons_1 in Hall as [_ Hall].
    exact Hall.
  - split; [rewrite length_map, length_seq; reflexivity | exact Hall].
  - intros t Ht. exact (lookup_tabulate (length logspec - 11) row t Ht).
Qed.

(** X10: a spectrogram of 11 frames or fewer leaves the list of windows
    empty, and [torch.stack] raises [RuntimeError]. *)
Theorem compute_phone_likelihoods_short (logspec : list (list float)) :
  length logspec <= 11 ->
  compute_phone_likelihoods logspec = RuntimeError.
Proof.
  intros Hlen. unfold compute_phone_likelihoods.
  rewrite likelihood_list_windows.
  replace (length logspec - 11) with 0 by lia. reflexivity.
Qed.

(** X11: frame 0 of the spectrogram is never read: the first window starts
    at frame 1, so two spectrograms that differ in frame 0 only give the same
    result. *)
Theorem compute_phone_likelihoods_skips_frame_0 (frame frame' : list float)
    (rest : list (list float)) :
  compute_phone_likelihoods (frame :: rest) =
    compute_phone_likelihoods (frame' :: rest).
Proof.
  unfold compute_phone_likelihoods. rewrite !likelihood_list_windows.
  cbn [length]. f_equal. apply map_ext. intros t.
  replace (t + 1) with (S t) by lia. reflexivity.
Qed.

End PhoneLikelihoods.

(** ** The likelihood computation of the script *)

(** [for x in xs: s = body(x, s)] outside a method. *)
Fixpoint for_each_r {S} (xs : list nat) (body : nat -> S -> result S) (s : S)
  : result S :=
  match xs with
  | [] => Ok s
  | x :: xs' => rbind (body x s) (for_each_r xs' body)
  end.

(** [a.T] for a 2-D array [a] of [c] columns. *)
Definition transpose {X} `{!Inhabited X} (c : nat) (a : list (list X))
  : list (list X) :=
  map (fun j => map (fun row => row !!! j) a) (seq 0 c).

(** [np.argmax(a, axis=0)] for a 2-D array [a] of [c] columns: for every
    column the row index of its maximum. *)
Fixpoint argmax_axis0_from (a : list (list float)) (js : list nat)
  : result (list nat) :=
  match js with
  | [] => Ok []
  | j :: js' =>
      rbind (Np.col a j) (fun column =>
      rbind (Np.argmax column) (fun i =>
      rbind (argmax_axis0_from a js') (fun pred => Ok (i :: pred))))
  end.

Definition argmax_axis0 (c : nat) (a : list (list float)) : result (list nat) :=
  argmax_axis0_from a (seq 0 c).

Section LikelihoodComputation.

Variable logsumexp : list float -> float.

(** [hmm.forward(likelihoods)] called from the script. *)
Definition call_forward (hmm : MyHMM) (likelihoods : list (list float))
  : result float :=
  (forward logsumexp {| self := hmm; state_likelihoods := likelihoods |}).1.

(** The block "Likelihood Computation": the 6-by-6 matrix of the scores of
    the six models [hmms] on the six utterances, whose emission arrays are
    [utterances], and the predictions read off it. *)
Definition likelihood_computation (hmms : list MyHMM)
    (utterances : list (list (list float))) : result (list nat) :=
  let matrix := Np.zeros2 6 6 in
  rbind (for_each_r (range 0 6) (fun i matrix =>
    for_each_r (range 0 6) (fun j matrix =>
      rbind (Np.get hmms i) (fun hmm =>
      rbind (Np.get utterances j) (fun likelihoods =>
      rbind (call_forward hmm likelihoods) (fun score =>
      Np.set2 matrix i j score))))
    matrix)
  matrix) (fun matrix =>
  let matrix := transpose 6 matrix in
  let matrix := transpose 6 matrix in
  let pred := argmax_axis0 6 matrix in
  pred).

End LikelihoodComputation.

(** An invariant for a loop outside a method. *)
Lemma for_each_r_range {S} (I : nat -> S -> Prop) a b
    (body : nat -> S -> result S) s :
  a <= b -> I a s ->
  (forall t s, a <= t < b -> I t s -> exists s', body t s = Ok s' /\ I (Datatypes.S t) s') ->
  exists s', for_each_r (range a b) body s = Ok s' /\ I b s'.
Proof.
  intros Hab. unfold range.
  remember (b - a) as n eqn:Hn. revert a s Hab Hn.
  induction n as [| n IH]; intros a s Hab Hn H0 Hstep.
  - assert (a = b) as -> by lia. exists s. split; [reflexivity | exact H0].
  - cbn [seq for_each_r].
    destruct (Hstep a s ltac:(lia) H0) as (s1 & Hs1 & HI1).
    rewrite Hs1. cbn [rbind].
    apply (IH (Datatypes.S a) s1); [lia | lia | exact HI1 |].
    intros t s2 Ht. apply Hstep. lia.
Qed.

Lemma transpose_transpose {X} `{!Inhabited X} r c (a : list (list X)) :
  shape2 r c a -> transpose r (transpose c a) = a.
Proof.
  intros Hs. pose proof Hs as [Hlen Hall]. unfold transpose.
  symmetry. apply list_tabulate; [exact Hlen |].
  intros t Ht. destruct (shape2_lookup r c a t Hs Ht) as (row & Hrow & Hrl).
  rewrite Hrow. f_equal. rewrite map_map.
  apply list_tabulate; [exact Hrl |].
  intros j Hj.
  assert (Hcol : map (fun row0 => row0 !!! j) a !!! t = row !!! j).
  { apply list_lookup_total_correct.
    change (map ?f a) with (f <$> a). rewrite list_lookup_fmap, Hrow. reflexivity. }
  rewrite Hcol. apply list_lookup_lookup_total_lt. lia.
Qed.

Lemma argmax_axis0_from_ok (a : list (list float)) (js : list nat) :
  (forall j, j ∈ js -> exists column, Np.col a j = Ok column /\ column <> []) ->
  exists pred,
    argmax_axis0_from a js = Ok pred /\
    length pred = length js /\
    forall n j, js !! n = Some j ->
      exists column i,
        Np.col a j = Ok column /\ pred !! n = Some i /\ is_first_argmax i column.
Proof.
  induction js as [| j js IH]; intros Hcols.
  - exists []. split; [reflexivity |]. split; [reflexivity |].
    intros n j H. discriminate H.
  - destruct (Hcols j (list_elem_of_here _ _)) as (column & Hcol & Hne).
    destruct (argmax_nonempty column Hne) as [i Hi].
    destruct IH as (pred & Hpred & Hlen & Hall).
    { intros j' Hj'. apply Hcols. apply list_elem_of_further. exact Hj'. }
    exists (i :: pred). cbn [argmax_axis0_from].
    rewrite Hcol. cbn [rbind]. rewrite Hi. cbn [rbind]. rewrite Hpred. cbn [rbind].
    split; [reflexivity |]. split; [cbn; rewrite Hlen; reflexivity |].
    intros [| n] j' Hj'; cbn in Hj'.
    + injection Hj' as <-. exists column, i.
      split; [exact Hcol |]. split; [reflexivity | apply argmax_is_first, Hi].
    + apply Hall. exact Hj'.
Qed.

Section Predictions.

Variable logsumexp : list float -> float.

(** X12: when the 36 calls of [forward] return, the block returns six
    predictions, and the prediction for utterance [j] is the smallest index
    of a model whose score on [j] is a maximum in numpy's order: the first
    of the best-scoring models, and a model whose score is NaN before any
    model with a number. *)
Theorem likelihood_computation_predicts (hmms : list MyHMM)
    (utterances : list (list (list float))) (score : nat -> nat -> float) :
  (forall i j, i < 6 -> j < 6 ->
     exists hmm likelihoods,
       hmms !! i = Some hmm /\ utterances !! j = Some likelihoods /\
       call_forward logsumexp hmm likelihoods = Ok (score i j)) ->
  exists pred,
    likelihood_computation logsumexp hmms utterances = Ok pred /\
    length pred = 6 /\
    forall j, j < 6 ->
      exists i, pred !! j = Some i /\
        is_first_argmax i (map (fun i => score i j) (seq 0 6)).
Proof.
  intros Hscore. unfold likelihood_computation.
  destruct (for_each_r_range
    (fun i (matrix : list (list float)) =>
       shape2 6 6 matrix /\
       forall i' j, i' < i -> j < 6 -> lookup2 matrix i' j = Some (score i' j))
    0 6
    (fun i matrix =>
       for_each_r (range 0 6) (fun j matrix =>
         rbind (Np.get hmms i) (fun hmm =>
         rbind (Np.get utterances j) (fun likelihoods =>
         rbind (call_forward logsumexp hmm likelihoods) (fun score =>
         Np.set2 matrix i j score))))
       matrix)
    (Np.zeros2 6 6)) as (matrix & Hrun & Hs & Hall).
  - lia.
  - split; [apply shape2_replicate | intros; lia].
  - intros i matrix0 Hi (Hs0 & Hdone).
    destruct (for_each_r_range
      (fun j (matrix : list (list float)) =>
         shape2 6 6 matrix /\
         (forall i' j', i' < i -> j' < 6 -> lookup2 matrix i' j' = Some (score i' j')) /\
         (forall j', j' < j -> lookup2 matrix i j' = Some (score i j')))
      0 6
      (fun j matrix =>
         rbind (Np.get hmms i) (fun hmm =>
         rbind (Np.get utterances j) (fun likelihoods =>
         rbind (call_forward logsumexp hmm likelihoods) (fun score =>
         Np.set2 matrix i j score))))
      matrix0) as (matrix1 & Hrun1 & Hs1 & Hprev1 & Hcur1).
    + lia.
    + split; [exact Hs0 |]. split; [exact Hdone | intros; lia].
    + intros j mx Hj (Hsm & Hprev & Hcur).
      destruct (Hscore i j ltac:(lia) ltac:(lia)) as (hmm & E & Hh & HE & Hf).
      rewrite (get_ok _ _ _ Hh). cbn [rbind].
      rewrite (get_ok _ _ _ HE). cbn [rbind]. rewrite Hf. cbn [rbind].
      destruct (shape2_lookup 6 6 mx i Hsm) as (row & Hrow & Hrl); [lia |].
      rewrite (set2_ok mx i j _ row Hrow) by lia.
      eexists. split; [reflexivity |].
      split; [apply shape2_insert; [exact Hsm | rewrite length_insert; exact Hrl] |].
      split.
      * intros i' j' Hi' Hj'. rewrite (lookup2_set2 mx i j _ row) by (assumption || lia).
        rewrite decide_False by lia. apply Hprev; assumption.
      * intros j' Hj'. rewrite (lookup2_set2 mx i j _ row) by (assumption || lia).
        destruct (decide (i = i /\ j = j')) as [[_ <-] | Hne]; [reflexivity |].
        apply Hcur. lia.
    + exists matrix1. split; [exact Hrun1 |]. split; [exact Hs1 |].
      intros i' j Hi' Hj. destruct (decide (i' = i)) as [-> | Hne].
      * apply Hcur1, Hj.
      * apply Hprev1; lia.
  - rewrite Hrun. cbn [rbind]. cbn zeta.
    rewrite (transpose_transpose 6 6 matrix Hs).
    assert (Hcol : forall j, j < 6 ->
              Np.col matrix j = Ok (map (fun i => score i j) (seq 0 6))).
    { intros j Hj. rewrite col_ok.
      - f_equal. destruct Hs as [Hlen Hrows].
        apply list_tabulate; [rewrite length_map; exact Hlen |].
        intros i Hi. change (map ?f matrix) with (f <$> matrix).
        rewrite list_lookup_fmap.
        specialize (Hall i j Hi Hj). apply lookup2_Some in Hall as (row & Hrow & Hx).
        rewrite Hrow. cbn. f_equal. apply list_lookup_total_correct. exact Hx.
      - destruct Hs as [_ Hrows]. eapply Forall_impl; [exact Hrows |].
        cbn. intros row ->. exact Hj. }
    destruct (argmax_axis0_from_ok matrix (seq 0 6)) as (pred & Hpred & Hlen & Hp).
    { intros j Hj. apply elem_of_seq in Hj.
      exists (map (fun i => score i j) (seq 0 6)). split; [apply Hcol; lia |].
      discriminate. }
    exists pred. split; [exact Hpred |]. split; [exact Hlen |].
    intros j Hj. destruct (Hp j j (lookup_seq_lt 0 6 j Hj)) as (column & i & Hc & Hi & Hfirst).
    rewrite (Hcol j Hj) in Hc. injection Hc as <-.
    exists i. split; [exact Hi | exact Hfirst].
Qed.

End Predictions.

(** ** Concrete runs of the further properties *)

(** Two states with an initial vector of three entries. *)
Definition mismatched_run : world :=
  {| self := unwrap two_state_model
       (__init__ Sample.log [0; 1]%Z [0.5; 0.25; 0.25]%float
          [[0.9; 0.1]; [0; 1]]%float default_eps);
     state_likelihoods := favouring 3 [0; 1] |}.

Lemma initial_length_mismatch_raises_witness :
  forward Sample.logsumexp mismatched_run = (Raise ValueError, mismatched_run) /\
  viterbi mismatched_run = (Raise ValueError, mismatched_run).
Proof.
  apply (initial_length_mismatch_raises Sample.logsumexp mismatched_run 2 3).
  - lia.
  - unfold emission_shape, shape2. cbn. shape_facts.
  - unfold labels_in_range. cbn. shape_facts.
  - reflexivity.
  - cbn. lia.
  - cbn. lia.
Defined.

Definition single_frame_run : world :=
  {| self := two_state_model; state_likelihoods := favouring 3 [1] |}.

Lemma single_frame_update_erases_transitions_witness :
  (viterbi_transition_update Sample.log single_frame_run).1 = Ok tt /\
  A (self (viterbi_transition_update Sample.log single_frame_run).2) =
    replicate (N_states (self single_frame_run))
      (replicate (N_states (self single_frame_run)) (Sample.log nan)).
Proof.
  apply (single_frame_update_erases_transitions Sample.log single_frame_run 3).
  - unfold model_shape. cbn. shape_facts.
  - cbn. lia.
  - unfold emission_shape, shape2. cbn. shape_facts.
  - unfold labels_in_range. cbn. shape_facts.
Defined.

Lemma transition_counts_add_up_witness :
  exists path,
    viterbi word_run = (Ok path, word_run) /\
    viterbi_transition_update Sample.log word_run =
      (Ok tt, updated Sample.log word_run
                (count_table path (N_states (self word_run)) (10 - 1),
                 out_table path (N_states (self word_run)) (10 - 1))) /\
    (forall j, j < N_states (self word_run) ->
       sum_upto (count_pairs path (10 - 1) j) (N_states (self word_run)) =
         out_degree path (10 - 1) j) /\
    sum_upto (out_degree path (10 - 1)) (N_states (self word_run)) = 10 - 1.
Proof.
  destruct word_run_shape as (H1 & H2 & H3 & H4 & H5).
  exact (transition_counts_add_up Sample.log word_run 10 3 H1 H2 H3 H4 H5).
Defined.

(** A small inventory and the phones of a word. *)
Definition some_phone_labels : list string := ["sil"; "f"; "iy"; "p"]%string.
Definition fee_phones : list string := ["sil"; "f"; "iy"; "sil"]%string.

Example fee_indices :
  phones2indices some_phone_labels fee_phones = Ok [0; 1; 2; 0]%Z.
Proof. reflexivity. Qed.

Lemma phones2indices_first_positions_witness :
  length [0; 1; 2; 0]%Z = length fee_phones /\
  forall n p, fee_phones !! n = Some p ->
    exists i, [0; 1; 2; 0]%Z !! n = Some (Z.of_nat i) /\
      some_phone_labels !! i = Some p /\
      forall k, k < i -> some_phone_labels !! k <> Some p.
Proof.
  exact (phones2indices_first_positions some_phone_labels fee_phones
           [0; 1; 2; 0]%Z fee_indices).
Defined.

Lemma script_model_decodes_witness :
  model_shape word_model /\
  labels_in_range (length some_phone_labels) word_model /\
  exists path,
    viterbi {| self := word_model; state_likelihoods := favouring 4 [0; 1; 2] |} =
      (Ok path, {| self := word_model; state_likelihoods := favouring 4 [0; 1; 2] |}) /\
    length path = 3 /\
    (forall t j, path !! t = Some j -> j < length fee_phones) /\
    (viterbi_transition_update Sample.log
       {| self := word_model; state_likelihoods := favouring 4 [0; 1; 2] |}).1 = Ok tt.
Proof.
  apply (script_model_decodes Sample.log some_phone_labels fee_phones [0; 1; 2; 0]%Z
           [0.5; 0.5; 0; 0]%float
           [[0.9; 0.1; 0; 0]; [0; 0.9; 0.1; 0]; [0; 0; 0.9; 0.1]; [0; 0; 0; 1]]%float
           default_eps word_model (favouring 4 [0; 1; 2]) 3).
  - reflexivity.
  - discriminate.
  - reflexivity.
  - unfold shape2. cbn. shape_facts.
  - reflexivity.
  - lia.
  - unfold emission_shape, shape2. cbn. shape_facts.
Defined.

(** A stand-in for the network: one score per window, the first entry of
    its first frame. *)
Definition first_entry (inp : list (list float)) : list float :=
  [hd 0%float (hd [] inp)].

Definition twelve_frames : list (list float) :=
  map (fun t => [PrimFloat.of_uint63 (Uint63.of_Z (Z.of_nat t))]) (seq 0 12).

Lemma compute_phone_likelihoods_windows_witness :
  exists likelihoods,
    compute_phone_likelihoods first_entry (fun x => PrimFloat.sub x 1) twelve_frames =
      Tensor likelihoods /\
    shape2 (length twelve_frames - 11) 1 likelihoods /\
    forall t, t < length twelve_frames - 11 ->
      likelihoods !! t =
        Some (map (fun x => PrimFloat.sub x 1)
                (first_entry (take 11 (drop (t + 1) twelve_frames)))).
Proof.
  apply (compute_phone_likelihoods_windows first_entry (fun x => PrimFloat.sub x 1)
           twelve_frames 1).
  - intros inp. reflexivity.
  - cbn. lia.
Defined.

Lemma compute_phone_likelihoods_short_witness :
  compute_phone_likelihoods first_entry (fun x => PrimFloat.sub x 1)
    (firstn 11 twelve_frames) = RuntimeError.
Proof.
  apply (compute_phone_likelihoods_short first_entry (fun x => PrimFloat.sub x 1)).
  cbn. lia.
Defined.

(** Six models and six utterances. *)
Definition six_models : list MyHMM :=
  [word_model; two_state_model; word_model; two_state_model; word_model;
   two_state_model].

Definition six_utterances : list (list (list float)) :=
  [favouring 3 [0; 1; 2]; favouring 3 [0; 0; 1]; favouring 3 [2; 1; 0];
   favouring 3 [1; 1]; favouring 3 [0]; favouring 3 [0; 1; 2; 0]].

Definition six_scores (i j : nat) : float :=
  unwrap 0%float
    (call_forward Sample.logsumexp (nth i six_models word_model)
       (nth j six_utterances [])).

Lemma likelihood_computation_predicts_witness :
  exists pred,
    likelihood_computation Sample.logsumexp six_models six_utterances = Ok pred /\
    length pred = 6 /\
    forall j, j < 6 ->
      exists i, pred !! j = Some i /\
        is_first_argmax i (map (fun i => six_scores i j) (seq 0 6)).
Proof.
  apply (likelihood_computation_predicts Sample.logsumexp six_models six_utterances
           six_scores).
  intros i j Hi Hj.
  exists (nth i six_models word_model), (nth j six_utterances []).
  destruct i as [| [| [| [| [| [| i]]]]]]; try lia;
    destruct j as [| [| [| [| [| [| j]]]]]]; try lia;
    (split; [reflexivity |]); (split; [reflexivity |]); vm_compute; reflexivity.
Defined.

Example six_predictions :
  likelihood_computation Sample.logsumexp six_models six_utterances =
    Ok [1; 1; 1; 1; 1; 0].
Proof. vm_compute. reflexivity. Qed.
